(** * JavaScriptPropTypes renderer: a shallow embedding and its properties

    Source: [src/quicktype-core/language/JavaScriptPropTypes.ts], class
    [JavaScriptPropTypesRenderer].  The renderer turns a type graph into
    prop-types validator source: [typeMapTypeFor] synthesizes a validator
    expression for a type, [emitTypes] hoists [let] placeholders, emits enum
    and object definitions (the objects in the order computed by the ordering
    loop) and the exported top-level bindings. *)

From Stdlib Require Import List String Ascii Arith Lia Bool Permutation Relations.
Import ListNotations.
Open Scope string_scope.
Open Scope list_scope.
Set Warnings "-register-all".

(** ** Source fragments *)

(** A [Name] is the identifier the Namer assigned.  The Namer hands out
    globally unique identifiers, so the [===] identity test on [Name] objects
    is equality of the assigned identifiers. *)
Definition Name := string.

(** Modelled from the spec: the [Sourcelike] type is declared in the core
    library.  An emitted fragment is literal text, a [Name] reference, or an
    array of fragments; these are the shapes this file builds. *)
Inductive Sourcelike : Type :=
| SText (s : string)
| SName (n : Name)
| SArr (items : list Sourcelike).

Definition dquote : string := String (ascii_of_nat 34) EmptyString.
Definition newlineText : string := String (ascii_of_nat 10) EmptyString.

(** Modelled from the spec: serialization of a [Sourcelike] is outside this
    file; the spec describes an emitted expression as an ordered sequence of
    emit-tokens, each either literal text or a [Name] reference.  [flatten]
    lists the tokens of a fragment in order, through nested arrays;
    [renderTokens] concatenates the text of the tokens of a sequence of
    fragments. *)
Fixpoint flatten (s : Sourcelike) : list Sourcelike :=
  match s with
  | SArr items =>
      (fix flattenAll (l : list Sourcelike) : list Sourcelike :=
         match l with
         | [] => []
         | x :: r => flatten x ++ flattenAll r
         end) items
  | _ => [s]
  end.

Definition flattenAll (l : list Sourcelike) : list Sourcelike :=
  flat_map flatten l.

Fixpoint renderFlat (tokens : list Sourcelike) : string :=
  match tokens with
  | [] => EmptyString
  | SText s :: r => String.append s (renderFlat r)
  | SName n :: r => String.append n (renderFlat r)
  | SArr _ :: r => renderFlat r
  end.

Definition renderTokens (l : list Sourcelike) : string :=
  renderFlat (flattenAll l).

(** The [Name]s among the elements of a sequence, in order. *)
Definition tokenNames (tokens : list Sourcelike) : list Name :=
  flat_map (fun s => match s with SName n => [n] | _ => [] end) tokens.

(** The [Name]s a sequence of fragments holds, at any depth, in order. *)
Definition namesIn (l : list Sourcelike) : list Name :=
  tokenNames (flattenAll l).

(** Induction on a fragment, through the elements of an array. *)
Section SourcelikeInduction.
Variable P : Sourcelike -> Prop.
Hypothesis HText : forall s, P (SText s).
Hypothesis HName : forall n, P (SName n).
Hypothesis HArr : forall items, Forall P items -> P (SArr items).

Fixpoint Sourcelike_induction (s : Sourcelike) : P s :=
  match s with
  | SText text => HText text
  | SName n => HName n
  | SArr items =>
      HArr items
        ((fix all (l : list Sourcelike) : Forall P l :=
            match l with
            | [] => Forall_nil P
            | x :: r => Forall_cons x (Sourcelike_induction x) (all r)
            end) items)
  end.
End SourcelikeInduction.

Definition render (s : Sourcelike) : string := renderTokens (flatten s).

(** ** Fatal failures *)

(** [panic] aborts the pass; a computation either returns or panics. *)
Inductive Result (A : Type) : Type :=
| Ok (a : A)
| Panic (msg : string).
Arguments Ok {A} a.
Arguments Panic {A} msg.

Definition panic {A : Type} (msg : string) : Result A := Panic msg.

Definition bindR {A B : Type} (m : Result A) (f : A -> Result B) : Result B :=
  match m with
  | Ok a => f a
  | Panic msg => Panic msg
  end.

Section MapR.
Context {A B : Type} (f : A -> Result B).

(** [Array.prototype.map] with a callback that may panic. *)
Fixpoint mapR (l : list A) : Result (list B) :=
  match l with
  | [] => Ok []
  | x :: r =>
      match f x with
      | Ok y => match mapR r with
                | Ok ys => Ok (y :: ys)
                | Panic msg => Panic msg
                end
      | Panic msg => Panic msg
      end
  end.
End MapR.

(** ** The type graph *)

Inductive TransformedStringKind : Type :=
| KDate | KTime | KDateTime | KUuid | KUri | KIntegerString | KBoolString.

(** Modelled from the spec: the [Type] class is declared in the core library.
    These are the variants of the data model; the kinds class and object both
    stand for the Object variant.  Class, object and enum nodes are handles
    into the graph: the synthesizer never looks inside them, it asks the Namer
    for their name, so a cycle through named types is a finite term.  A cycle
    that passes through array and union nodes only has no term. *)
Inductive Type_ : Type :=
| AnyType
| NullType
| BoolType
| IntegerType
| DoubleType
| StringType
| TransformedStringType (k : TransformedStringKind)
| ArrayType (items : Type_)
| ClassType (id : nat)
| MapType (values : Type_)
| ObjectType (id : nat)
| EnumType (id : nat)
| UnionType (members : list Type_).

Definition transformedKind (k : TransformedStringKind) : string :=
  match k with
  | KDate => "date"
  | KTime => "time"
  | KDateTime => "date-time"
  | KUuid => "uuid"
  | KUri => "uri"
  | KIntegerString => "integer-string"
  | KBoolString => "bool-string"
  end.

(** Modelled from the spec: [t.kind], the tag of the variant. *)
Definition kind (t : Type_) : string :=
  match t with
  | AnyType => "any"
  | NullType => "null"
  | BoolType => "bool"
  | IntegerType => "integer"
  | DoubleType => "double"
  | StringType => "string"
  | TransformedStringType k => transformedKind k
  | ArrayType _ => "array"
  | ClassType _ => "class"
  | MapType _ => "map"
  | ObjectType _ => "object"
  | EnumType _ => "enum"
  | UnionType _ => "union"
  end.

(** Modelled from the spec: [type instanceof PrimitiveType]; the primitive
    variants are any, null, bool, integer, double, string and the transformed
    strings. *)
Definition isPrimitive (t : Type_) : bool :=
  match t with
  | AnyType | NullType | BoolType | IntegerType | DoubleType | StringType
  | TransformedStringType _ => true
  | _ => false
  end.

Record ClassProperty : Type := {
  type : Type_;
  isOptional : bool
}.

(** Modelled from the spec: what the renderer reads from its collaborators,
    which live in the base renderer.  The traversals of the type graph
    ([forEachObject], [forEachEnum], [forEachEnumCase],
    [forEachClassProperty], [forEachTopLevel]) are given by the sequences they
    deliver, each in its stable order; [nameForNamedType] is the Namer's
    assignment; [leadingComments] is the caller's comment block. *)
Record Renderer : Type := {
  namedObjects : list (Type_ * Name);
  namedEnums : list (Type_ * Name);
  enumCases : Type_ -> list (Name * string);
  classProperties : Type_ -> list (Name * string * ClassProperty);
  topLevels : list (Type_ * Name);
  nameForNamedType : Type_ -> Name;
  leadingComments : option (list string)
}.

(** ** JavaScript array helpers *)

(** [arr.indexOf(x)] on an array of strings: the first index, or -1. *)
Fixpoint indexOfFrom (l : list string) (x : string) (i : nat) : option nat :=
  match l with
  | [] => None
  | y :: r => if String.eqb y x then Some i else indexOfFrom r x (S i)
  end.

(** [arr.indexOf(x) >= 0] *)
Definition indexOfNonNegative (l : list string) (x : string) : bool :=
  match indexOfFrom l x 0 with
  | Some _ => true
  | None => false
  end.

(** [arrayIntercalate(separator, items)] of collection-utils: the items with
    the separator between each two neighbours. *)
Fixpoint arrayIntercalate {A : Type} (separator : A) (items : list A) : list A :=
  match items with
  | [] => []
  | [x] => [x]
  | x :: r => x :: separator :: arrayIntercalate separator r
  end.

(** [arr.pop()]: drops the last element; nothing happens on an empty array. *)
Definition pop {A : Type} (l : list A) : list A := removelast l.

(** [arr.splice(start, 0, item)]: inserts [item] before position [start]; a
    [start] beyond the end appends. *)
Definition splice {A : Type} (l : list A) (start : nat) (item : A) : list A :=
  firstn start l ++ item :: skipn start l.

(** ** The validator synthesizer *)

(** Modelled from the spec: [matchType] belongs to the core library.  It
    dispatches on the variant of the type and calls the handler of that
    variant, in the argument order of the call below (any, null, bool,
    integer, double, string, array, class, map, enum, union, transformed
    string).  The object kind has no handler in that list and is the fatal
    internal-consistency failure. *)
Definition matchType {U : Type} (t : Type_)
  (anyType nullType boolType integerType doubleType stringType : Result U)
  (arrayType : Type_ -> Result U)
  (classType : Result U)
  (mapType : Type_ -> Result U)
  (enumType : Result U)
  (unionType : list Type_ -> Result U)
  (transformedStringType : Result U) : Result U :=
  match t with
  | AnyType => anyType
  | NullType => nullType
  | BoolType => boolType
  | IntegerType => integerType
  | DoubleType => doubleType
  | StringType => stringType
  | TransformedStringType _ => transformedStringType
  | ArrayType items => arrayType items
  | ClassType _ => classType
  | MapType values => mapType values
  | ObjectType _ => panic "Unsupported type object in non-exhaustive match"
  | EnumType _ => enumType
  | UnionType members => unionType members
  end.

Section Synthesizer.
Variable this : Renderer.

(** [typeMapTypeFor(t, required = true)] *)
Fixpoint typeMapTypeFor (t : Type_) (required : bool) : Result Sourcelike :=
  if indexOfNonNegative ["class"; "object"; "enum"] (kind t) then
    Ok (SArr [SText "_"; SName (nameForNamedType this t)])
  else
    bindR
      (matchType t
         (Ok (SText "PropTypes.any"))
         (Ok (SText "PropTypes.any"))
         (Ok (SText "PropTypes.bool"))
         (Ok (SText "PropTypes.number"))
         (Ok (SText "PropTypes.number"))
         (Ok (SText "PropTypes.string"))
         (fun items =>
            bindR (typeMapTypeFor items false) (fun inner =>
            Ok (SArr [SText "PropTypes.arrayOf("; inner; SText ")"])))
         (panic "Should already be handled.")
         (fun _ => Ok (SText "PropTypes.object"))
         (panic "Should already be handled.")
         (fun members =>
            bindR (mapR (fun ty => typeMapTypeFor ty false) members)
              (fun children =>
            Ok (SArr (SText "PropTypes.oneOfType(["
                        :: arrayIntercalate (SText ", ") children
                        ++ [SText "])"]))))
         (Ok (SText "PropTypes.string")))
      (fun match_ => if required then Ok (SArr [match_]) else Ok match_).

(** [typeMapTypeForProperty(p)] *)
Definition typeMapTypeForProperty (p : ClassProperty) : Result Sourcelike :=
  bindR (typeMapTypeFor (type p) true) (fun typeMap =>
  if negb (isOptional p) then Ok typeMap
  else Ok (SArr [SText "PropType.any"])).

End Synthesizer.

(** ** The emission context *)

(** Modelled from the spec: the text-emission mechanics ([emitLine],
    [ensureBlankLine], [indent], [gatherSource], [emitGatheredSource],
    [emitCommentLines]) belong to the base renderer.  The context holds the
    emitted source as the sequence of the elements pushed so far.  A line
    pushes one element, the part itself when the line has one part and the
    array of its parts when it has several, and then a line break; a [Name]
    that is one of several parts of a line is therefore inside an array, not
    an element of the emitted sequence.  A requested blank line is pushed
    before the next element when something was emitted already; indentation
    is literal text pushed before the element of a line.  The emitted text is
    the text of the tokens of the sequence ([renderTokens]). *)
Record EmitContext : Type := {
  emitted : list Sourcelike;
  blankLineNeeded : bool;
  indentation : nat
}.

Definition freshContext : EmitContext :=
  {| emitted := []; blankLineNeeded := false; indentation := 0 |}.

Definition Emit (A : Type) : Type := EmitContext -> Result (A * EmitContext).

Definition ret {A : Type} (a : A) : Emit A := fun c => Ok (a, c).

Definition bind {A B : Type} (m : Emit A) (f : A -> Emit B) : Emit B :=
  fun c =>
    match m c with
    | Ok (a, c') => f a c'
    | Panic msg => Panic msg
    end.

Definition liftR {A : Type} (r : Result A) : Emit A :=
  fun c =>
    match r with
    | Ok a => Ok (a, c)
    | Panic msg => Panic msg
    end.

Declare Scope emit_scope.
Delimit Scope emit_scope with emit.
Notation "x <- m ;; k" := (bind m (fun x => k))
  (at level 61, m at next level, right associativity) : emit_scope.
Notation "m ;;; k" := (bind m (fun _ => k))
  (at level 61, right associativity) : emit_scope.
Open Scope emit_scope.

Fixpoint forEach {A : Type} (l : list A) (f : A -> Emit unit) : Emit unit :=
  match l with
  | [] => ret tt
  | x :: r => f x ;;; forEach r f
  end.

Definition isEmpty (c : EmitContext) : bool :=
  match emitted c with
  | [] => true
  | _ :: _ => false
  end.

Definition pendingBlank (c : EmitContext) : list Sourcelike :=
  if blankLineNeeded c && negb (isEmpty c) then [SText newlineText] else [].

Fixpoint spaces (n : nat) : string :=
  match n with
  | 0 => EmptyString
  | S k => String " "%char (spaces k)
  end.

Definition indentText (level : nat) : list Sourcelike :=
  match level with
  | 0 => []
  | S _ => [SText (spaces (4 * level))]
  end.

(** [ensureBlankLine]: asks for a blank line before the next element; at
    the start of a context no blank line is wanted and the call does
    nothing. *)
Definition ensureBlankLine : Emit unit :=
  fun c =>
    if isEmpty c then Ok (tt, c)
    else
      Ok (tt, {| emitted := emitted c;
                 blankLineNeeded := true;
                 indentation := indentation c |}).

(** The element a line pushes: nothing for no part, the part for one part,
    the array of the parts for several. *)
Definition lineItem (lineParts : list Sourcelike) : list Sourcelike :=
  match lineParts with
  | [] => []
  | [part] => [part]
  | _ :: _ :: _ => [SArr lineParts]
  end.

(** [emitLine(...lineParts)]: the element of the line, if any, through
    [emitItem] (which first pushes the pending blank line), then the line
    break. *)
Definition emitLine (lineParts : list Sourcelike) : Emit unit :=
  fun c =>
    match lineParts with
    | [] =>
        Ok (tt, {| emitted := emitted c ++ [SText newlineText];
                   blankLineNeeded := blankLineNeeded c;
                   indentation := indentation c |})
    | _ :: _ =>
        Ok (tt, {| emitted := emitted c ++ pendingBlank c
                                ++ indentText (indentation c)
                                ++ lineItem lineParts ++ [SText newlineText];
                   blankLineNeeded := false;
                   indentation := indentation c |})
    end.

(** [changeIndent]: fails before the first line of a context.  The emitters
    of this file push whole lines, so a context has a line exactly when it is
    not empty. *)
Definition changeIndent (f : nat -> nat) : Emit unit :=
  fun c =>
    if isEmpty c then panic "Cannot change indent for the first line"
    else
      Ok (tt, {| emitted := emitted c;
                 blankLineNeeded := blankLineNeeded c;
                 indentation := f (indentation c) |}).

Definition indent (fn : Emit unit) : Emit unit :=
  changeIndent S ;;; fn ;;; changeIndent Nat.pred.

(** [gatherSource(emitter)]: runs the emitter on a context of its own and
    returns the sequence of elements it pushed, one per line and line break;
    the renderer's context is put back. *)
Definition gatherSource (emitter : Emit unit) : Emit (list Sourcelike) :=
  fun c =>
    match emitter freshContext with
    | Ok (_, c') => Ok (emitted c', c)
    | Panic msg => Panic msg
    end.

(** [emitGatheredSource(items)]: every item through [emitItem], so the
    pending blank line comes before the first item. *)
Definition emitGatheredSource (items : list Sourcelike) : Emit unit :=
  fun c =>
    match items with
    | [] => Ok (tt, c)
    | _ :: _ =>
        Ok (tt, {| emitted := emitted c ++ pendingBlank c ++ items;
                   blankLineNeeded := false;
                   indentation := indentation c |})
    end.

(** [emitCommentLines(lines)]: the comment start is [// ], without the blank
    for an empty line. *)
Definition emitCommentLines (lines : list string) : Emit unit :=
  forEach lines (fun line =>
    emitLine [SText (if String.eqb line EmptyString then "//" else "// ");
              SText line]).

(** ** The ordering loop of [emitTypes] *)

(** Truthiness of an array element: the filter [(value) => value as Name]
    keeps what is truthy; the cast does nothing at run time.  Of the values a
    gathered source holds only the empty string is falsy. *)
Definition truthy (value : Sourcelike) : bool :=
  match value with
  | SText EmptyString => false
  | _ => true
  end.

(** [key === depName] for a [Name] on the left: true exactly when the value
    is that very [Name]. *)
Definition strictEqName (key : option Name) (depName : Sourcelike) : bool :=
  match key, depName with
  | Some k, SName n => String.eqb k n
  | _, _ => false
  end.

(** The inner [for j] loop: one pass over [order] for one [depName]. *)
Definition scanOrder (mapKey : list Name) (order : list nat)
  (depName : Sourcelike) (ordinal : nat) : nat :=
  fold_left
    (fun ordinal depIndex =>
       if strictEqName (nth_error mapKey depIndex) depName
       then Nat.max ordinal (depIndex + 1)
       else ordinal)
    order ordinal.

(** The [for i] loop over the names of one gathered source, from
    [ordinal = 0]. *)
Definition ordinalFor (mapKey : list Name) (order : list nat)
  (source : list Sourcelike) : nat :=
  let names := filter truthy source in
  fold_left (fun ordinal depName => scanOrder mapKey order depName ordinal)
    names 0.

(** One round of [mapKey.forEach]: the body for [index].  [mapValue[index]]
    out of range is [undefined], and calling [filter] on it throws. *)
Definition orderStep (mapKey : list Name) (mapValue : list (list Sourcelike))
  (order : list nat) (index : nat) : Result (list nat) :=
  match nth_error mapValue index with
  | Some source => Ok (splice order (ordinalFor mapKey order source) index)
  | None => panic "TypeError: source is undefined"
  end.

Fixpoint orderLoop (mapKey : list Name) (mapValue : list (list Sourcelike))
  (indices : list nat) (order : list nat) : Result (list nat) :=
  match indices with
  | [] => Ok order
  | index :: rest =>
      bindR (orderStep mapKey mapValue order index)
        (fun order' => orderLoop mapKey mapValue rest order')
  end.

(** [mapKey.forEach((_, index) => ...)] starting from [order = []]. *)
Definition computeOrder (mapKey : list Name) (mapValue : list (list Sourcelike))
  : Result (list nat) :=
  orderLoop mapKey mapValue (seq 0 (List.length mapKey)) [].

(** ** The renderer's emitters *)

(** [(type as any).items] *)
Definition itemsOf (t : Type_) : option Type_ :=
  match t with
  | ArrayType items => Some items
  | _ => None
  end.

Section Emitters.
(** [utf16StringEscape] of support/Strings, used as given. *)
Variable utf16StringEscape : string -> string.
Variable this : Renderer.

Definition emitUsageComments : Emit unit :=
  emitLine [SText "// For use with proptypes."].

Definition emitImports : Emit unit :=
  ensureBlankLine ;;;
  emitLine [SText (String.append "import PropTypes from "
                     (String.append dquote
                        (String.append "prop-types" (String.append dquote ";"))))].

(** The callback of [forEachClassProperty] in [emitObject]. *)
Definition emitProperty (entry : Name * string * ClassProperty) : Emit unit :=
  let jsonName := snd (fst entry) in
  let property := snd entry in
  typeMap <- liftR (typeMapTypeForProperty this property) ;;
  emitLine [SText (String.append dquote
                     (String.append (utf16StringEscape jsonName) dquote));
            SText ": "; typeMap; SText ","].

Definition emitObject (name : Name) (t : Type_) : Emit unit :=
  ensureBlankLine ;;;
  emitLine [SText "_"; SName name; SText " = PropTypes.shape({"] ;;;
  indent (forEach (classProperties this t) emitProperty) ;;;
  emitLine [SText "});"].

(** The first [forEachObject] callback: the hoisted placeholder. *)
Definition emitPlaceholder (entry : Type_ * Name) : Emit unit :=
  emitLine [SText "let _"; SName (snd entry); SText ";"].

(** The [options] array of the [forEachEnum] callback: four pushes per
    case, then one [pop]. *)
Definition enumOptions (cases : list (Name * string)) : list Sourcelike :=
  pop (fold_left
         (fun options c =>
            options ++ [SText "'"; SName (fst c); SText "'"; SText ", "])
         cases []).

Definition emitEnum (entry : Type_ * Name) : Emit unit :=
  let options := enumOptions (enumCases this (fst entry)) in
  emitLine [SArr (SText "const _" :: SName (snd entry)
                    :: SText " = PropTypes.oneOfType(["
                    :: options ++ [SText "]);"])].

(** The second [forEachObject]: [mapKey] and [mapValue] grow together. *)
Fixpoint gatherObjects (objects : list (Type_ * Name))
  (mapKey : list Name) (mapValue : list (list Sourcelike))
  : Emit (list Name * list (list Sourcelike)) :=
  match objects with
  | [] => ret (mapKey, mapValue)
  | entry :: rest =>
      source <- gatherSource (emitObject (snd entry) (fst entry)) ;;
      gatherObjects rest (mapKey ++ [snd entry]) (mapValue ++ [source])
  end.

(** [order.forEach((i) => this.emitGatheredSource(mapValue[i]))] *)
Definition emitOrdered (order : list nat) (mapValue : list (list Sourcelike))
  : Emit unit :=
  forEach order (fun i =>
    match nth_error mapValue i with
    | Some source => emitGatheredSource source
    | None => liftR (panic "TypeError: items is not iterable")
    end).

(** The [forEachTopLevel] callback. *)
Definition emitTopLevel (entry : Type_ * Name) : Emit unit :=
  let type_ := fst entry in
  let name := snd entry in
  if isPrimitive type_ then
    ensureBlankLine ;;;
    typeMap <- liftR (typeMapTypeFor this type_ true) ;;
    emitLine [SText "export const "; SName name; SText " = "; typeMap; SText ";"]
  else if String.eqb (kind type_) "array" then
    ensureBlankLine ;;;
    typeMap <- liftR (match itemsOf type_ with
                      | Some items => typeMapTypeFor this items true
                      | None => panic "TypeError: t is undefined"
                      end) ;;
    emitLine [SText "export const "; SName name; SText " = PropTypes.arrayOf(";
              typeMap; SText ");"]
  else
    ensureBlankLine ;;;
    emitLine [SText "export const "; SName name; SText " = _"; SName name;
              SText ";"].

Definition emitTypes : Emit unit :=
  ensureBlankLine ;;;
  forEach (namedObjects this) emitPlaceholder ;;;
  forEach (namedEnums this) emitEnum ;;;
  gathered <- gatherObjects (namedObjects this) [] [] ;;
  order <- liftR (computeOrder (fst gathered) (snd gathered)) ;;
  emitOrdered order (snd gathered) ;;;
  forEach (topLevels this) emitTopLevel.

Definition emitSourceStructure : Emit unit :=
  match leadingComments this with
  | Some comments => emitCommentLines comments
  | None => emitUsageComments
  end ;;;
  emitImports ;;;
  emitTypes.

End Emitters.

(** The whole pass, from a renderer's fresh context to the emitted text. *)
Definition renderPass (utf16StringEscape : string -> string) (this : Renderer)
  : Result string :=
  match emitSourceStructure utf16StringEscape this freshContext with
  | Ok (_, c) => Ok (renderTokens (emitted c))
  | Panic msg => Panic msg
  end.

(** *** A few graphs to run the emitters on *)

Definition noEscape (s : string) : string := s.

Definition requiredProperty (t : Type_) : ClassProperty :=
  {| type := t; isOptional := false |}.
Definition optionalProperty (t : Type_) : ClassProperty :=
  {| type := t; isOptional := true |}.

(** Three objects: [A] and [B] have no properties, [C] has a required
    property of type [A]. *)
Definition graphABC : Renderer :=
  {| namedObjects := [(ClassType 0, "A"); (ClassType 1, "B"); (ClassType 2, "C")];
     namedEnums := [];
     enumCases := fun _ => [];
     classProperties := fun t =>
       match t with
       | ClassType 2 => [("a", "a", requiredProperty (ClassType 0))]
       | _ => []
       end;
     topLevels := [(ClassType 2, "C")];
     nameForNamedType := fun t =>
       match t with
       | ClassType 0 => "A"
       | ClassType 1 => "B"
       | _ => "C"
       end;
     leadingComments := None |}.

(** ** Definitions used to state the properties *)

(** The guard at the head of [typeMapTypeFor]. *)
Definition isNamedKind (t : Type_) : bool :=
  indexOfNonNegative ["class"; "object"; "enum"] (kind t).

(** What the [required] flag does to the result of the match. *)
Definition wrapRequired (required : bool) (match_ : Sourcelike) : Sourcelike :=
  if required then SArr [match_] else match_.

(** The leaves of the match. *)
Definition leafText (t : Type_) : option string :=
  match t with
  | AnyType | NullType => Some "PropTypes.any"
  | BoolType => Some "PropTypes.bool"
  | IntegerType | DoubleType => Some "PropTypes.number"
  | StringType | TransformedStringType _ => Some "PropTypes.string"
  | MapType _ => Some "PropTypes.object"
  | _ => None
  end.

(** [eraseMapValues t] forgets the value type of every map inside [t]. *)
Fixpoint eraseMapValues (t : Type_) : Type_ :=
  match t with
  | MapType _ => MapType AnyType
  | ArrayType items => ArrayType (eraseMapValues items)
  | UnionType members => UnionType (map eraseMapValues members)
  | _ => t
  end.

(** ** Induction over types, through the members of a union *)

Section TypeInduction.
Variable P : Type_ -> Prop.
Hypothesis HAny : P AnyType.
Hypothesis HNull : P NullType.
Hypothesis HBool : P BoolType.
Hypothesis HInteger : P IntegerType.
Hypothesis HDouble : P DoubleType.
Hypothesis HString : P StringType.
Hypothesis HTransformed : forall k, P (TransformedStringType k).
Hypothesis HArray : forall items, P items -> P (ArrayType items).
Hypothesis HClass : forall id, P (ClassType id).
Hypothesis HMap : forall values, P values -> P (MapType values).
Hypothesis HObject : forall id, P (ObjectType id).
Hypothesis HEnum : forall id, P (EnumType id).
Hypothesis HUnion : forall members, Forall P members -> P (UnionType members).

Fixpoint Type_induction (t : Type_) : P t :=
  match t with
  | AnyType => HAny
  | NullType => HNull
  | BoolType => HBool
  | IntegerType => HInteger
  | DoubleType => HDouble
  | StringType => HString
  | TransformedStringType k => HTransformed k
  | ArrayType items => HArray items (Type_induction items)
  | ClassType id => HClass id
  | MapType values => HMap values (Type_induction values)
  | ObjectType id => HObject id
  | EnumType id => HEnum id
  | UnionType members =>
      HUnion members
        ((fix all (l : list Type_) : Forall P l :=
            match l with
            | [] => Forall_nil P
            | x :: r => Forall_cons x (Type_induction x) (all r)
            end) members)
  end.
End TypeInduction.

(** ** The ordering loop in closed form *)

(** Position of an index in the output list (its length when absent). *)
Fixpoint positionOf (x : nat) (order : list nat) : nat :=
  match order with
  | [] => 0
  | y :: rest => if Nat.eqb x y then 0 else S (positionOf x rest)
  end.

(** [dependsOn mapKey source depIndex]: one of the elements of [source] is
    the [Name] that is the key of definition [depIndex]. *)
Definition dependsOn (mapKey : list Name) (source : list Sourcelike)
  (depIndex : nat) : bool :=
  existsb (strictEqName (nth_error mapKey depIndex)) (filter truthy source).

(** [mentions mapKey source depIndex]: the key of definition [depIndex]
    occurs in [source], at any depth. *)
Definition mentions (mapKey : list Name) (source : list Sourcelike)
  (depIndex : nat) : bool :=
  match nth_error mapKey depIndex with
  | Some key => existsb (String.eqb key) (namesIn source)
  | None => false
  end.

(** The insertion ordinal in the words of the specification: scan the body
    for every referenced Name; the ordinal is the maximum, over the
    dependencies already in the output list, of one past the dependency's
    position in that list, and 0 when there is none. *)
Definition ordinalByPosition (mapKey : list Name) (order : list nat)
  (source : list Sourcelike) : nat :=
  list_max
    (map (fun j => j + 1)
       (filter (fun j => match nth_error order j with
                         | Some depIndex => mentions mapKey source depIndex
                         | None => false
                         end)
          (seq 0 (List.length order)))).

(** What the loop computes, in closed form: the maximum, over the
    definitions in the output list whose key is an element of the source, of
    one past the definition's index in [mapKey]. *)
Definition ordinalByIndex (mapKey : list Name) (order : list nat)
  (source : list Sourcelike) : nat :=
  list_max
    (map (fun depIndex => depIndex + 1)
       (filter (dependsOn mapKey source) order)).

(** A loop input with [Name]s as elements: definitions [Z], [X] and [Y], the
    source of [X] holds [Y] and the source of [Y] holds [Z]. *)
Definition chainKeys : list Name := ["Z"; "X"; "Y"].
Definition chainValues : list (list Sourcelike) :=
  [ [SText "z"]; [SText "x: "; SName "Y"]; [SText "y: "; SName "Z"] ].

(** ** The shape of the emitted lines *)

(** What one emitted line pushes: its element, then the line break. *)
Definition lineTokens (lineParts : list Sourcelike) : list Sourcelike :=
  lineItem lineParts ++ [SText newlineText].

(** The blank line before a line that follows [ensureBlankLine]. *)
Definition blankIfStarted (c : EmitContext) : list Sourcelike :=
  if isEmpty c then [] else [SText newlineText].

(** [let _name;] *)
Definition placeholderLine (name : Name) : list Sourcelike :=
  [SArr [SText "let _"; SName name; SText ";"]; SText newlineText].

(** The literal of one enum case, and the literals of all cases of an enum
    with the separator between neighbours. *)
Definition caseLiteral (case : Name * string) : list Sourcelike :=
  [SText "'"; SName (fst case); SText "'"].

Definition oneOfLiterals (cases : list (Name * string)) : list Sourcelike :=
  List.concat (arrayIntercalate [SText ", "] (map caseLiteral cases)).

(** [const _name = PropTypes.oneOfType([ ... ]);] *)
Definition enumLine (this : Renderer) (entry : Type_ * Name) : list Sourcelike :=
  [SArr (SText "const _" :: SName (snd entry)
           :: SText " = PropTypes.oneOfType(["
           :: oneOfLiterals (enumCases this (fst entry)) ++ [SText "]);"]);
   SText newlineText].

(** [export const name = _name;] and [export const name = <expression>;] *)
Definition aliasBinding (name : Name) : list Sourcelike :=
  [SArr [SText "export const "; SName name; SText " = _"; SName name;
         SText ";"];
   SText newlineText].

Definition inlineBinding (name : Name) (expression : Sourcelike)
  : list Sourcelike :=
  [SArr [SText "export const "; SName name; SText " = "; expression;
         SText ";"];
   SText newlineText].

(** The expression [typeMapTypeForProperty] returns (it always returns, see
    [typeMapTypeForProperty_expressionOf]). *)
Definition expressionOf (this : Renderer) (p : ClassProperty) : Sourcelike :=
  match typeMapTypeForProperty this p with
  | Ok s => s
  | Panic _ => SText EmptyString
  end.

Definition propertyParts (utf16StringEscape : string -> string)
  (this : Renderer) (entry : Name * string * ClassProperty) : list Sourcelike :=
  [SText (String.append dquote
            (String.append (utf16StringEscape (snd (fst entry))) dquote));
   SText ": "; expressionOf this (snd entry); SText ","].

(** [_name = PropTypes.shape({] *)
Definition bodyHead (name : Name) : list Sourcelike :=
  [SArr [SText "_"; SName name; SText " = PropTypes.shape({"];
   SText newlineText].

(** The gathered source of one object: head, one indented line per property,
    closing line. *)
Definition objectBody (utf16StringEscape : string -> string) (this : Renderer)
  (entry : Type_ * Name) : list Sourcelike :=
  bodyHead (snd entry)
    ++ flat_map (fun p => indentText 1
                            ++ lineTokens (propertyParts utf16StringEscape this p))
         (classProperties this (fst entry))
    ++ [SText "});"; SText newlineText].

(** The named types [typeMapTypeFor] refers to when it synthesizes [t]. *)
Fixpoint namedTypesOf (t : Type_) : list Type_ :=
  match t with
  | ClassType _ | ObjectType _ | EnumType _ => [t]
  | ArrayType items => namedTypesOf items
  | UnionType members => flat_map namedTypesOf members
  | _ => []
  end.

(** The graph is closed: every named type a property of a declared object
    refers to is itself among the declared objects and enums, under the name
    the Namer gives it. *)
Definition closedGraph (this : Renderer) : Prop :=
  forall entry property t,
    In entry (namedObjects this) ->
    In property (classProperties this (fst entry)) ->
    In t (namedTypesOf (type (snd property))) ->
    In (nameForNamedType this t)
       (map snd (namedObjects this) ++ map snd (namedEnums this)).

(** The blank line [emitTypes] asks for lands before its first declaration. *)
Definition declarationsBlank (this : Renderer) (c : EmitContext)
  : list Sourcelike :=
  match namedObjects this ++ namedEnums this with
  | [] => []
  | _ :: _ => blankIfStarted c
  end.

(** The labels an enum declares, in declared order. *)
Definition colorLabels : list string := ["Red"; "Green"; "Blue"].

(** An enum [Color] that declares the cases Red, Green and Blue, and nothing
    else, as the renderer receives it.  [makeEnumCaseNamer] names a case with
    [nameStyle(s, false)], whose style for the first word is
    [allLowerWordStyle], so the cases are named red, green and blue.
    [forEachEnumCase] belongs to the base renderer; it delivers the cases
    sorted by the Name they were given, each with its label. *)
Definition colorGraph : Renderer :=
  {| namedObjects := [];
     namedEnums := [(EnumType 0, "Color")];
     enumCases := fun _ => [("blue", "Blue"); ("green", "Green"); ("red", "Red")];
     classProperties := fun _ => [];
     topLevels := [(EnumType 0, "Color")];
     nameForNamedType := fun _ => "Color";
     leadingComments := None |}.

(** Two objects that hold each other: [A] has a property of type [B] and [B]
    has a property of type [A]. *)
Definition mutualGraph : Renderer :=
  {| namedObjects := [(ClassType 0, "A"); (ClassType 1, "B")];
     namedEnums := [];
     enumCases := fun _ => [];
     classProperties := fun t =>
       match t with
       | ClassType 0 => [("b", "b", requiredProperty (ClassType 1))]
       | ClassType 1 => [("a", "a", requiredProperty (ClassType 0))]
       | _ => []
       end;
     topLevels := [(ClassType 0, "A")];
     nameForNamedType := fun t =>
       match t with
       | ClassType 0 => "A"
       | _ => "B"
       end;
     leadingComments := None |}.

(** A run of an emitter that succeeds and appends [tokens]. *)
Definition appends (m : Emit unit) (c : EmitContext) (tokens : list Sourcelike)
  (c' : EmitContext) : Prop :=
  m c = Ok (tt, c') /\
  emitted c' = emitted c ++ tokens /\
  indentation c' = indentation c.

(** The output holds the placeholder declaration [let _name;]. *)
Definition hasPlaceholder (name : Name) (out : list Sourcelike) : Prop :=
  exists before after, out = before ++ placeholderLine name ++ after.

(** ** Further definitions used to state properties *)

(** The text of the validator for a type, by direct recursion on the type:
    a reference to the name for class, object and enum, the leaf validators,
    [PropTypes.arrayOf(...)] around the items of an array and
    [PropTypes.oneOfType(\[..., ...\])] around the members of a union. *)
Fixpoint validatorText (this : Renderer) (t : Type_) : string :=
  match t with
  | AnyType | NullType => "PropTypes.any"
  | BoolType => "PropTypes.bool"
  | IntegerType | DoubleType => "PropTypes.number"
  | StringType | TransformedStringType _ => "PropTypes.string"
  | MapType _ => "PropTypes.object"
  | ClassType _ | ObjectType _ | EnumType _ =>
      String.append "_" (nameForNamedType this t)
  | ArrayType items =>
      String.append "PropTypes.arrayOf("
        (String.append (validatorText this items) ")")
  | UnionType members =>
      String.append "PropTypes.oneOfType(["
        (String.append (String.concat ", " (map (validatorText this) members))
           "])")
  end.

(** [coarsen t] replaces, at any depth below arrays and unions, null by any,
    integer by double and every transformed string by string. *)
Fixpoint coarsen (t : Type_) : Type_ :=
  match t with
  | NullType => AnyType
  | IntegerType => DoubleType
  | TransformedStringType _ => StringType
  | ArrayType items => ArrayType (coarsen items)
  | UnionType members => UnionType (map coarsen members)
  | _ => t
  end.

(** The names of the named types a property contributes to the body of its
    object: none when the property is optional. *)
Definition propertyNames (this : Renderer) (p : ClassProperty) : list Name :=
  if isOptional p then []
  else map (nameForNamedType this) (namedTypesOf (type p)).

(** [l1] is [l2] with some elements left out, the others in the same order. *)
Inductive Subsequence {A : Type} : list A -> list A -> Prop :=
| Subsequence_nil : Subsequence [] []
| Subsequence_skip (x : A) (l1 l2 : list A) :
    Subsequence l1 l2 -> Subsequence l1 (x :: l2)
| Subsequence_take (x : A) (l1 l2 : list A) :
    Subsequence l1 l2 -> Subsequence (x :: l1) (x :: l2).

(** Two objects without dependencies: [P] has a required string and [Q] has
    an optional property of type [P]. *)
Definition flatGraph : Renderer :=
  {| namedObjects := [(ClassType 0, "P"); (ClassType 1, "Q")];
     namedEnums := [];
     enumCases := fun _ => [];
     classProperties := fun t =>
       match t with
       | ClassType 0 => [("x", "x", requiredProperty StringType)]
       | ClassType 1 => [("p", "p", optionalProperty (ClassType 0))]
       | _ => []
       end;
     topLevels := [(ClassType 1, "Q")];
     nameForNamedType := fun t =>
       match t with
       | ClassType 0 => "P"
       | _ => "Q"
       end;
     leadingComments := None |}.

(** The text of the exported binding of a root: the validator text of the
    root's type when it is primitive or an array, the alias [_name]
    otherwise. *)
Definition topLevelText (this : Renderer) (entry : Type_ * Name) : string :=
  String.append "export const "
    (String.append (snd entry)
       (String.append " = "
          (String.append
             (if isPrimitive (fst entry) || String.eqb (kind (fst entry)) "array"
              then validatorText this (fst entry)
              else String.append "_" (snd entry))
             (String.append ";" newlineText)))).

(** [emitBlock(source, end, emit)] *)
Definition emitBlock (source end_ : Sourcelike) (emit : Emit unit) : Emit unit :=
  emitLine [source; SText "{"] ;;;
  indent emit ;;;
  emitLine [SText "}"; end_].

(** The first lines of the output when the caller gave no leading comments. *)
Definition usageHeader : string :=
  String.append "// For use with proptypes."
    (String.append newlineText
       (String.append newlineText
          (String.append "import PropTypes from "
             (String.append dquote
                (String.append "prop-types"
                   (String.append dquote (String.append ";" newlineText))))))).

(** ** The reference graph of the named objects *)

(** Object [i] references object [j]: the name of object [j] is among the
    names a property of object [i] contributes to its body. *)
Definition objectReferences (this : Renderer) (i j : nat) : Prop :=
  exists entry target property,
    nth_error (namedObjects this) i = Some entry /\
    nth_error (namedObjects this) j = Some target /\
    In property (classProperties this (fst entry)) /\
    In (snd target) (propertyNames this (snd property)).

(** No object reaches itself through references. *)
Definition acyclicGraph (this : Renderer) : Prop :=
  forall i, ~ clos_trans nat (objectReferences this) i i.

(** The ordering loop in the words of the specification: the definitions
    are processed in their original order and each one is inserted at its
    [ordinalByPosition]. *)
Fixpoint orderLoopByPosition (mapKey : list Name)
  (mapValue : list (list Sourcelike)) (indices : list nat) (order : list nat)
  : list nat :=
  match indices with
  | [] => order
  | index :: rest =>
      orderLoopByPosition mapKey mapValue rest
        (splice order
           (ordinalByPosition mapKey order (nth index mapValue [])) index)
  end.

(** Three objects in a chain without cycle: [X] has no properties, [D] has a
    required property of type [E], [E] has a required property of type [X]. *)
Definition graphXDE : Renderer :=
  {| namedObjects := [(ClassType 0, "X"); (ClassType 1, "D"); (ClassType 2, "E")];
     namedEnums := [];
     enumCases := fun _ => [];
     classProperties := fun t =>
       match t with
       | ClassType 1 => [("e", "e", requiredProperty (ClassType 2))]
       | ClassType 2 => [("x", "x", requiredProperty (ClassType 0))]
       | _ => []
       end;
     topLevels := [(ClassType 1, "D")];
     nameForNamedType := fun t =>
       match t with
       | ClassType 0 => "X"
       | ClassType 1 => "D"
       | _ => "E"
       end;
     leadingComments := None |}.

(** The text of the literal of one enum case. *)
Definition caseLiteralText (case : Name * string) : string :=
  String.append "'" (String.append (fst case) "'").

(** The text of the line of an enum. *)
Definition enumLineText (this : Renderer) (entry : Type_ * Name) : string :=
  String.append "const _"
    (String.append (snd entry)
       (String.append " = PropTypes.oneOfType(["
          (String.append
             (String.concat ", "
                (map caseLiteralText (enumCases this (fst entry))))
             (String.append "]);" newlineText)))).

(** Roots that are neither primitive nor arrays, objects nor enums: a map
    and a union, in a graph without named types. *)
Definition mapRootGraph : Renderer :=
  {| namedObjects := [];
     namedEnums := [];
     enumCases := fun _ => [];
     classProperties := fun _ => [];
     topLevels := [(MapType StringType, "Dict");
                   (UnionType [StringType; IntegerType], "U")];
     nameForNamedType := fun _ => "";
     leadingComments := None |}.

(** The names the output declares: one per placeholder line and one per enum
    line. *)
Definition declaredNames (this : Renderer) : list Name :=
  map snd (namedObjects this) ++ map snd (namedEnums this).

(** * Properties *)

(** ** The synthesizer *)

Lemma isNamedKind_spec (t : Type_) :
  isNamedKind t =
  match t with
  | ClassType _ | ObjectType _ | EnumType _ => true
  | _ => false
  end.
Proof. destruct t as [ | | | | | | k | | | | | | ]; try reflexivity. destruct k; reflexivity. Qed.

Lemma flatten_SArr (items : list Sourcelike) :
  flatten (SArr items) = flattenAll items.
Proof.
  unfold flattenAll. simpl.
  induction items as [ | x r IH ]; simpl; [ reflexivity | now rewrite IH ].
Qed.

Lemma flatten_wrapRequired (required : bool) (s : Sourcelike) :
  flatten (wrapRequired required s) = flatten s.
Proof.
  destruct required; simpl; [ | reflexivity ].
  now rewrite app_nil_r.
Qed.

Lemma flattenAll_app (l1 l2 : list Sourcelike) :
  flattenAll (l1 ++ l2) = flattenAll l1 ++ flattenAll l2.
Proof. apply flat_map_app. Qed.

Lemma flattenAll_tokens (l : list Sourcelike) :
  Forall (fun s => match s with SArr _ => False | _ => True end) l ->
  flattenAll l = l.
Proof.
  unfold flattenAll.
  induction 1 as [ | s r Hs _ IH ]; [ reflexivity | ].
  simpl. rewrite IH. destruct s; [ reflexivity | reflexivity | contradiction ].
Qed.

(** [flatten] leaves no array. *)
Lemma flatten_tokens (s : Sourcelike) :
  Forall (fun x => match x with SArr _ => False | _ => True end) (flatten s).
Proof.
  induction s as [ text | n | items IH ] using Sourcelike_induction.
  - repeat constructor.
  - repeat constructor.
  - rewrite flatten_SArr. unfold flattenAll.
    induction IH as [ | x r Hx _ IHr ]; [ constructor | ].
    simpl. apply Forall_app. split; assumption.
Qed.

Lemma flattenAll_flatten (s : Sourcelike) : flattenAll (flatten s) = flatten s.
Proof. apply flattenAll_tokens, flatten_tokens. Qed.

Lemma render_flat (s : Sourcelike) : render s = renderFlat (flatten s).
Proof. unfold render, renderTokens. now rewrite flattenAll_flatten. Qed.

Lemma namesIn_flatten (s : Sourcelike) :
  namesIn (flatten s) = tokenNames (flatten s).
Proof. unfold namesIn. now rewrite flattenAll_flatten. Qed.

Lemma mapR_total {A B : Type} (f : A -> Result B) (l : list A) :
  Forall (fun x => exists y, f x = Ok y) l ->
  exists ys, mapR f l = Ok ys /\ Forall2 (fun x y => f x = Ok y) l ys.
Proof.
  induction 1 as [ | x r [y Hy] _ [ys [Hys HF]] ].
  - exists []. split; [ reflexivity | constructor ].
  - exists (y :: ys). simpl. rewrite Hy, Hys. split; [ reflexivity | ].
    constructor; assumption.
Qed.

Section SynthesizerFacts.
Variable this : Renderer.

Lemma typeMapTypeFor_named (t : Type_) (required : bool) :
  isNamedKind t = true ->
  typeMapTypeFor this t required
  = Ok (SArr [SText "_"; SName (nameForNamedType this t)]).
Proof.
  rewrite isNamedKind_spec.
  destruct t; intros H; try discriminate H; reflexivity.
Qed.

Lemma typeMapTypeFor_array (items : Type_) (required : bool) :
  typeMapTypeFor this (ArrayType items) required
  = bindR (typeMapTypeFor this items false) (fun inner =>
      Ok (wrapRequired required
            (SArr [SText "PropTypes.arrayOf("; inner; SText ")"]))).
Proof.
  simpl. destruct (typeMapTypeFor this items false); simpl;
    [ destruct required | ]; reflexivity.
Qed.

Lemma typeMapTypeFor_union (members : list Type_) (required : bool) :
  typeMapTypeFor this (UnionType members) required
  = bindR (mapR (fun ty => typeMapTypeFor this ty false) members)
      (fun children =>
         Ok (wrapRequired required
               (SArr (SText "PropTypes.oneOfType(["
                        :: arrayIntercalate (SText ", ") children
                        ++ [SText "])"])))).
Proof.
  simpl.
  destruct (mapR (fun ty => typeMapTypeFor this ty false) members); simpl;
    [ destruct required | ]; reflexivity.
Qed.

Lemma typeMapTypeFor_leaf (t : Type_) (text : string) (required : bool) :
  leafText t = Some text ->
  typeMapTypeFor this t required = Ok (wrapRequired required (SText text)).
Proof.
  destruct t as [ | | | | | | k | | | | | | ]; simpl; intros H;
    try discriminate H; injection H as <-;
    try (destruct required; reflexivity).
  destruct k; destruct required; reflexivity.
Qed.

Lemma typeMapTypeFor_total (t : Type_) :
  forall required, exists s, typeMapTypeFor this t required = Ok s.
Proof.
  induction t as [ | | | | | | k | items IH | id | values _ | id | id
                 | members IH ] using Type_induction; intros required;
    try (eexists; apply typeMapTypeFor_leaf; reflexivity);
    try (eexists; apply typeMapTypeFor_named; reflexivity).
  - destruct (IH false) as [inner Hinner].
    rewrite typeMapTypeFor_array, Hinner. simpl. eexists; reflexivity.
  - assert (Hall : Forall (fun x => exists y,
               (fun ty => typeMapTypeFor this ty false) x = Ok y) members).
    { revert IH. apply Forall_impl. intros ty Hty. apply Hty. }
    destruct (mapR_total _ _ Hall) as [children [Hchildren _]].
    rewrite typeMapTypeFor_union, Hchildren. simpl. eexists; reflexivity.
Qed.

End SynthesizerFacts.

Lemma mapR_map_ext {A B : Type} (f : A -> Result B) (g : A -> A) (l : list A) :
  Forall (fun x => f (g x) = f x) l -> mapR f (map g l) = mapR f l.
Proof.
  induction 1 as [ | x r Hx _ IH ]; simpl; [ reflexivity | ].
  now rewrite Hx, IH.
Qed.

Section SynthesizerShape.
Variable this : Renderer.

Lemma typeMapTypeFor_eraseMapValues (t : Type_) :
  forall required,
    typeMapTypeFor this (eraseMapValues t) required
    = typeMapTypeFor this t required.
Proof.
  induction t as [ | | | | | | k | items IH | id | values _ | id | id
                 | members IH ] using Type_induction; intros required;
    try reflexivity.
  - simpl eraseMapValues. rewrite !typeMapTypeFor_array. now rewrite IH.
  - simpl eraseMapValues. rewrite !typeMapTypeFor_union.
    rewrite (mapR_map_ext (fun ty => typeMapTypeFor this ty false));
      [ reflexivity | ].
    revert IH. apply Forall_impl. intros ty Hty. apply Hty.
Qed.

(** Outside the named kinds the result is the match, wrapped or not. *)
Lemma typeMapTypeFor_shape (t : Type_) :
  isNamedKind t = false ->
  exists match_, forall required,
    typeMapTypeFor this t required = Ok (wrapRequired required match_).
Proof.
  rewrite isNamedKind_spec.
  destruct t as [ | | | | | | k | items | id | values | id | id | members ];
    intros H; try discriminate H;
    try (eexists; intros required; apply typeMapTypeFor_leaf; reflexivity).
  - destruct (typeMapTypeFor_total this items false) as [inner Hinner].
    eexists. intros required.
    rewrite typeMapTypeFor_array, Hinner. reflexivity.
  - destruct (typeMapTypeFor_total this (UnionType members) false) as [s Hs].
    rewrite typeMapTypeFor_union in Hs.
    destruct (mapR (fun ty => typeMapTypeFor this ty false) members)
      as [children | msg] eqn:Hchildren; [ | discriminate Hs ].
    eexists. intros required.
    rewrite typeMapTypeFor_union, Hchildren. reflexivity.
Qed.

Lemma typeMapTypeForProperty_optional (t : Type_) :
  typeMapTypeForProperty this (optionalProperty t) = Ok (SArr [SText "PropType.any"]).
Proof.
  unfold typeMapTypeForProperty. simpl.
  destruct (typeMapTypeFor_total this t true) as [s Hs].
  now rewrite Hs.
Qed.

Lemma typeMapTypeForProperty_required (t : Type_) :
  typeMapTypeForProperty this (requiredProperty t) = typeMapTypeFor this t true.
Proof.
  unfold typeMapTypeForProperty. simpl.
  destruct (typeMapTypeFor this t true); reflexivity.
Qed.

End SynthesizerShape.

(** C9.  [typeMapTypeFor] is total: for every type of every variant, with
    either value of [required], it returns an expression and never panics.
    Class, object and enum types are answered by the guard before the match
    with the reference to their name, so the two [panic] handlers of the match
    are never reached. *)
Theorem typeMapTypeFor_is_total (this : Renderer) :
  (forall t required, exists s, typeMapTypeFor this t required = Ok s) /\
  (forall id required,
      typeMapTypeFor this (ClassType id) required
      = Ok (SArr [SText "_"; SName (nameForNamedType this (ClassType id))]) /\
      typeMapTypeFor this (ObjectType id) required
      = Ok (SArr [SText "_"; SName (nameForNamedType this (ObjectType id))]) /\
      typeMapTypeFor this (EnumType id) required
      = Ok (SArr [SText "_"; SName (nameForNamedType this (EnumType id))])).
Proof.
  split.
  - intros t required. apply typeMapTypeFor_total.
  - intros id required. repeat split; reflexivity.
Qed.

(** C7.  A map type synthesizes to the generic object validator whatever its
    value type is, and this holds wherever the map sits: forgetting the value
    type of every map inside a type does not change the synthesized
    expression.  In particular two maps with different value types give the
    same expression. *)
Theorem map_value_type_is_discarded (this : Renderer) :
  (forall values required,
      typeMapTypeFor this (MapType values) required
      = Ok (wrapRequired required (SText "PropTypes.object"))) /\
  (forall values1 values2 required,
      typeMapTypeFor this (MapType values1) required
      = typeMapTypeFor this (MapType values2) required) /\
  (forall t required,
      typeMapTypeFor this t required
      = typeMapTypeFor this (eraseMapValues t) required).
Proof.
  split; [ | split ].
  - intros values required. apply typeMapTypeFor_leaf. reflexivity.
  - intros values1 values2 required.
    rewrite !(typeMapTypeFor_leaf this _ "PropTypes.object") by reflexivity.
    reflexivity.
  - intros t required. symmetry. apply typeMapTypeFor_eraseMapValues.
Qed.

(** C10.  For every type, [typeMapTypeFor t true] and
    [typeMapTypeFor t false] both return, the first is the second or the
    second wrapped in a one-element array, and the two have the same tokens
    and the same rendered text. *)
Theorem required_flag_does_not_change_text (this : Renderer) (t : Type_) :
  exists s1 s2,
    typeMapTypeFor this t true = Ok s1 /\
    typeMapTypeFor this t false = Ok s2 /\
    (s1 = s2 \/ s1 = SArr [s2]) /\
    flatten s1 = flatten s2 /\
    render s1 = render s2.
Proof.
  destruct (isNamedKind t) eqn:Hkind.
  - exists (SArr [SText "_"; SName (nameForNamedType this t)]),
           (SArr [SText "_"; SName (nameForNamedType this t)]).
    rewrite !typeMapTypeFor_named by assumption.
    repeat split; auto.
  - destruct (typeMapTypeFor_shape this t Hkind) as [match_ Hmatch].
    exists (SArr [match_]), match_.
    rewrite !Hmatch. simpl wrapRequired.
    assert (Hflat : flatten (SArr [match_]) = flatten match_)
      by apply (flatten_wrapRequired true).
    repeat split; auto.
    unfold render. now rewrite Hflat.
Qed.

(** C2 (what the code does).  For a required property
    [typeMapTypeForProperty] is [typeMapTypeFor] of the property's type.  For
    an optional one it drops the type and returns the text [PropType.any],
    which is not the text [PropTypes.any] that [typeMapTypeFor] gives for the
    any type: the two differ in the name of the library object. *)
Theorem optional_property_validator_text (this : Renderer) (t : Type_) :
  typeMapTypeForProperty this (requiredProperty t) = typeMapTypeFor this t true /\
  typeMapTypeForProperty this (optionalProperty t) = Ok (SArr [SText "PropType.any"]) /\
  typeMapTypeFor this AnyType true = Ok (SArr [SText "PropTypes.any"]) /\
  render (SArr [SText "PropType.any"]) = "PropType.any" /\
  render (SArr [SText "PropTypes.any"]) = "PropTypes.any" /\
  render (SArr [SText "PropType.any"]) <> render (SArr [SText "PropTypes.any"]).
Proof.
  repeat split.
  - apply typeMapTypeForProperty_required.
  - apply typeMapTypeForProperty_optional.
  - vm_compute. discriminate.
Qed.

(** ** Text of the synthesized expression *)

Lemma string_append_assoc (a b c : string) :
  String.append (String.append a b) c = String.append a (String.append b c).
Proof. induction a as [ | ch a IH ]; simpl; [ reflexivity | now rewrite IH ]. Qed.

Lemma string_append_nil_r (a : string) : String.append a EmptyString = a.
Proof. induction a as [ | ch a IH ]; simpl; [ reflexivity | now rewrite IH ]. Qed.

Lemma renderFlat_app (l1 l2 : list Sourcelike) :
  renderFlat (l1 ++ l2) = String.append (renderFlat l1) (renderFlat l2).
Proof.
  induction l1 as [ | [s | n | items] r IH ]; simpl;
    rewrite ?IH, ?string_append_assoc; reflexivity.
Qed.

Lemma renderTokens_app (l1 l2 : list Sourcelike) :
  renderTokens (l1 ++ l2) = String.append (renderTokens l1) (renderTokens l2).
Proof. unfold renderTokens. now rewrite flattenAll_app, renderFlat_app. Qed.

Lemma renderTokens_SText (text : string) (r : list Sourcelike) :
  renderTokens (SText text :: r) = String.append text (renderTokens r).
Proof. reflexivity. Qed.

Lemma renderTokens_SArr (items r : list Sourcelike) :
  renderTokens (SArr items :: r)
  = String.append (renderTokens items) (renderTokens r).
Proof.
  unfold renderTokens.
  change (flattenAll (SArr items :: r))
    with (flatten (SArr items) ++ flattenAll r).
  now rewrite flatten_SArr, renderFlat_app.
Qed.

Lemma render_wrapRequired (required : bool) (s : Sourcelike) :
  render (wrapRequired required s) = render s.
Proof. unfold render. now rewrite flatten_wrapRequired. Qed.

Lemma mapR_Forall2 {A B : Type} (f : A -> Result B) (l : list A) (ys : list B) :
  mapR f l = Ok ys -> Forall2 (fun x y => f x = Ok y) l ys.
Proof.
  revert ys. induction l as [ | x r IH ]; simpl; intros ys H.
  - injection H as <-. constructor.
  - destruct (f x) as [y | ] eqn:Hy; [ | discriminate H ].
    destruct (mapR f r) as [ys' | ] eqn:Hys; [ | discriminate H ].
    injection H as <-. constructor; [ exact Hy | now apply IH ].
Qed.

Lemma render_intercalate (children : list Sourcelike) :
  renderFlat (flattenAll (arrayIntercalate (SText ", ") children))
  = String.concat ", " (map render children).
Proof.
  induction children as [ | child rest IH ]; [ reflexivity | ].
  destruct rest as [ | child' rest' ].
  - unfold flattenAll. simpl. now rewrite app_nil_r, render_flat.
  - change (arrayIntercalate (SText ", ") (child :: child' :: rest'))
      with (child :: SText ", " :: arrayIntercalate (SText ", ") (child' :: rest')).
    change (map render (child :: child' :: rest'))
      with (render child :: map render (child' :: rest')).
    change (String.concat ", " (render child :: map render (child' :: rest')))
      with (String.append (render child)
              (String.append ", "
                 (String.concat ", " (map render (child' :: rest'))))).
    rewrite <- IH, render_flat. unfold flattenAll at 1. cbn [flat_map].
    rewrite !renderFlat_app. reflexivity.
Qed.

Lemma render_children (this : Renderer) (members : list Type_)
  (children : list Sourcelike) :
  Forall (fun t => forall required s,
            typeMapTypeFor this t required = Ok s ->
            render s = validatorText this t) members ->
  Forall2 (fun t s => typeMapTypeFor this t false = Ok s) members children ->
  map render children = map (validatorText this) members.
Proof.
  intros Hall Hchildren. revert Hall.
  induction Hchildren as [ | t s members children Hs _ IH ]; intros Hall;
    [ reflexivity | ].
  inversion Hall as [ | ? ? Ht Hrest ]; subst.
  simpl. now rewrite (Ht false s Hs), IH.
Qed.

Lemma typeMapTypeFor_leaf_text (this : Renderer) (t : Type_) (text : string)
  (required : bool) (s : Sourcelike) :
  leafText t = Some text ->
  typeMapTypeFor this t required = Ok s ->
  render s = validatorText this t.
Proof.
  intros Hleaf Hs.
  rewrite (typeMapTypeFor_leaf this t text required Hleaf) in Hs.
  injection Hs as <-. rewrite render_wrapRequired.
  destruct t; try discriminate Hleaf; injection Hleaf as <-; reflexivity.
Qed.

Lemma typeMapTypeFor_text (this : Renderer) (t : Type_) :
  forall required s,
    typeMapTypeFor this t required = Ok s -> render s = validatorText this t.
Proof.
  induction t as [ | | | | | | k | items IH | id | values _ | id | id
                 | members IH ] using Type_induction; intros required s Hs;
    try (eapply (typeMapTypeFor_leaf_text this _ _ required s);
         [ | exact Hs ]; reflexivity);
    try (rewrite typeMapTypeFor_named in Hs by reflexivity;
         injection Hs as <-; rewrite render_flat; simpl;
         now rewrite string_append_nil_r).
  - rewrite typeMapTypeFor_array in Hs.
    destruct (typeMapTypeFor this items false) as [inner | msg] eqn:Hinner;
      [ | discriminate Hs ].
    simpl in Hs. injection Hs as <-.
    rewrite render_wrapRequired, render_flat, flatten_SArr.
    unfold flattenAll. cbn [flat_map]. rewrite !renderFlat_app.
    rewrite <- (render_flat inner), (IH false inner Hinner). reflexivity.
  - rewrite typeMapTypeFor_union in Hs.
    destruct (mapR (fun ty => typeMapTypeFor this ty false) members)
      as [children | msg] eqn:Hchildren; [ | discriminate Hs ].
    simpl in Hs. injection Hs as <-.
    rewrite render_wrapRequired, render_flat, flatten_SArr.
    change (SText "PropTypes.oneOfType(["
              :: arrayIntercalate (SText ", ") children ++ [SText "])"])
      with ([SText "PropTypes.oneOfType(["]
              ++ arrayIntercalate (SText ", ") children ++ [SText "])"]).
    unfold flattenAll. rewrite !flat_map_app, !renderFlat_app.
    fold (flattenAll (arrayIntercalate (SText ", ") children)).
    rewrite render_intercalate.
    rewrite (render_children this members children IH
               (mapR_Forall2 _ _ _ Hchildren)).
    reflexivity.
Qed.

(** X1.  The text of the expression [typeMapTypeFor] synthesizes is the
    validator text of the type, built by direct recursion: the reference
    [_name] for a class, object or enum, the leaf validator for a primitive
    or a map, [PropTypes.arrayOf(items)] for an array, and
    [PropTypes.oneOfType(\[m1, m2, ...\])] for a union, the members separated
    by a comma and a blank (an empty union gives [PropTypes.oneOfType(\[\])]). *)
Theorem expression_text_follows_type (this : Renderer) (t : Type_)
  (required : bool) :
  exists s,
    typeMapTypeFor this t required = Ok s /\
    render s = validatorText this t.
Proof.
  destruct (typeMapTypeFor_total this t required) as [s Hs].
  exists s. split; [ exact Hs | ].
  now apply (typeMapTypeFor_text this t required).
Qed.

(** ** Types the synthesizer does not tell apart *)

Lemma typeMapTypeFor_coarsen (this : Renderer) (t : Type_) :
  forall required,
    typeMapTypeFor this (coarsen t) required = typeMapTypeFor this t required.
Proof.
  induction t as [ | | | | | | k | items IH | id | values _ | id | id
                 | members IH ] using Type_induction; intros required;
    try reflexivity.
  - destruct k; reflexivity.
  - simpl coarsen. rewrite !typeMapTypeFor_array. now rewrite IH.
  - simpl coarsen. rewrite !typeMapTypeFor_union.
    rewrite (mapR_map_ext (fun ty => typeMapTypeFor this ty false));
      [ reflexivity | ].
    revert IH. apply Forall_impl. intros ty Hty. apply Hty.
Qed.

(** X2.  The synthesizer does not tell null from any, integer from double,
    or a transformed string (date, uuid, ...) from a plain string, at any
    depth below arrays and unions: replacing one by the other everywhere in a
    type leaves the synthesized expression unchanged. *)
Theorem coarsened_type_has_same_expression (this : Renderer) (t : Type_)
  (required : bool) :
  typeMapTypeFor this t required = typeMapTypeFor this (coarsen t) required /\
  typeMapTypeFor this (ArrayType (UnionType [NullType; IntegerType;
                                             TransformedStringType KDate]))
    required
  = typeMapTypeFor this (ArrayType (UnionType [AnyType; DoubleType; StringType]))
      required.
Proof.
  split.
  - symmetry. apply typeMapTypeFor_coarsen.
  - rewrite <- (typeMapTypeFor_coarsen this
                  (ArrayType (UnionType [NullType; IntegerType;
                                         TransformedStringType KDate]))).
    reflexivity.
Qed.
(** ** The names an expression and a body refer to *)

Lemma tokenNames_app (l1 l2 : list Sourcelike) :
  tokenNames (l1 ++ l2) = tokenNames l1 ++ tokenNames l2.
Proof. unfold tokenNames. apply flat_map_app. Qed.

Lemma namesIn_app (l1 l2 : list Sourcelike) :
  namesIn (l1 ++ l2) = namesIn l1 ++ namesIn l2.
Proof. unfold namesIn. now rewrite flattenAll_app, tokenNames_app. Qed.

Lemma namesIn_SArr (items r : list Sourcelike) :
  namesIn (SArr items :: r) = namesIn items ++ namesIn r.
Proof.
  unfold namesIn.
  change (flattenAll (SArr items :: r))
    with (flatten (SArr items) ++ flattenAll r).
  now rewrite flatten_SArr, tokenNames_app.
Qed.

Lemma namesIn_singleton (s : Sourcelike) : namesIn [s] = namesIn (flatten s).
Proof.
  rewrite namesIn_flatten. unfold namesIn, flattenAll. simpl.
  now rewrite app_nil_r.
Qed.

Lemma namesIn_wrapRequired (required : bool) (s : Sourcelike) :
  namesIn (flatten (wrapRequired required s)) = namesIn (flatten s).
Proof. now rewrite flatten_wrapRequired. Qed.

Lemma tokenNames_intercalate (children : list Sourcelike) :
  tokenNames (flattenAll (arrayIntercalate (SText ", ") children))
  = flat_map (fun child => namesIn (flatten child)) children.
Proof.
  induction children as [ | child rest IH ]; [ reflexivity | ].
  destruct rest as [ | child' rest' ].
  - unfold flattenAll. simpl. now rewrite !app_nil_r, namesIn_flatten.
  - change (arrayIntercalate (SText ", ") (child :: child' :: rest'))
      with (child :: SText ", " :: arrayIntercalate (SText ", ") (child' :: rest')).
    change (flat_map (fun c => namesIn (flatten c)) (child :: child' :: rest'))
      with (namesIn (flatten child)
              ++ flat_map (fun c => namesIn (flatten c)) (child' :: rest')).
    rewrite <- IH, namesIn_flatten. unfold flattenAll at 1. cbn [flat_map].
    rewrite !tokenNames_app. reflexivity.
Qed.

Lemma names_of_children (this : Renderer) (members : list Type_)
  (children : list Sourcelike) :
  Forall (fun t => forall required s,
            typeMapTypeFor this t required = Ok s ->
            namesIn (flatten s)
            = map (nameForNamedType this) (namedTypesOf t)) members ->
  Forall2 (fun t s => typeMapTypeFor this t false = Ok s) members children ->
  flat_map (fun child => namesIn (flatten child)) children
  = map (nameForNamedType this) (flat_map namedTypesOf members).
Proof.
  intros Hall Hchildren. revert Hall.
  induction Hchildren as [ | t s members children Hs _ IH ]; intros Hall;
    [ reflexivity | ].
  inversion Hall as [ | ? ? Ht Hrest ]; subst.
  simpl. now rewrite map_app, (Ht false s Hs), IH.
Qed.

Lemma typeMapTypeFor_leaf_no_names (this : Renderer) (t : Type_) (text : string)
  (required : bool) (s : Sourcelike) :
  leafText t = Some text ->
  typeMapTypeFor this t required = Ok s ->
  namesIn (flatten s) = map (nameForNamedType this) (namedTypesOf t).
Proof.
  intros Hleaf Hs.
  rewrite (typeMapTypeFor_leaf this t text required Hleaf) in Hs.
  injection Hs as <-. rewrite namesIn_wrapRequired.
  destruct t; try discriminate Hleaf; reflexivity.
Qed.

Lemma typeMapTypeFor_names_exact (this : Renderer) (t : Type_) :
  forall required s,
    typeMapTypeFor this t required = Ok s ->
    namesIn (flatten s) = map (nameForNamedType this) (namedTypesOf t).
Proof.
  induction t as [ | | | | | | k | items IH | id | values _ | id | id
                 | members IH ] using Type_induction; intros required s Hs;
    try (eapply (typeMapTypeFor_leaf_no_names this _ _ required s);
         [ | exact Hs ]; reflexivity);
    try (rewrite typeMapTypeFor_named in Hs by reflexivity;
         injection Hs as <-; reflexivity).
  - rewrite typeMapTypeFor_array in Hs.
    destruct (typeMapTypeFor this items false) as [inner | msg] eqn:Hinner;
      [ | discriminate Hs ].
    simpl in Hs. injection Hs as <-.
    rewrite namesIn_wrapRequired, namesIn_flatten, flatten_SArr.
    unfold flattenAll. cbn [flat_map]. rewrite !tokenNames_app.
    rewrite <- (namesIn_flatten inner), (IH false inner Hinner).
    simpl. now rewrite app_nil_r.
  - rewrite typeMapTypeFor_union in Hs.
    destruct (mapR (fun ty => typeMapTypeFor this ty false) members)
      as [children | msg] eqn:Hchildren; [ | discriminate Hs ].
    simpl in Hs. injection Hs as <-.
    rewrite namesIn_wrapRequired, namesIn_flatten, flatten_SArr.
    change (SText "PropTypes.oneOfType(["
              :: arrayIntercalate (SText ", ") children ++ [SText "])"])
      with ([SText "PropTypes.oneOfType(["]
              ++ arrayIntercalate (SText ", ") children ++ [SText "])"]).
    unfold flattenAll. rewrite !flat_map_app, !tokenNames_app.
    fold (flattenAll (arrayIntercalate (SText ", ") children)).
    rewrite tokenNames_intercalate.
    rewrite (names_of_children this members children IH
               (mapR_Forall2 _ _ _ Hchildren)).
    simpl. now rewrite app_nil_r.
Qed.

(** X3.  The names inside a synthesized expression are exactly the names of
    the class, object and enum types met on the way down through arrays and
    unions, left to right and with repetitions; in particular the value type
    of a map contributes no name. *)
Theorem expression_names_are_named_types (this : Renderer) (t : Type_)
  (required : bool) :
  exists s,
    typeMapTypeFor this t required = Ok s /\
    namesIn (flatten s) = map (nameForNamedType this) (namedTypesOf t).
Proof.
  destruct (typeMapTypeFor_total this t required) as [s Hs].
  exists s. split; [ exact Hs | ].
  now apply (typeMapTypeFor_names_exact this t required).
Qed.

(** ** The ordering loop *)

Lemma splice_Permutation {A : Type} (l : list A) (start : nat) (item : A) :
  Permutation (splice l start item) (item :: l).
Proof.
  unfold splice. symmetry.
  rewrite <- (firstn_skipn start l) at 1.
  apply Permutation_middle.
Qed.

Lemma splice_0 {A : Type} (l : list A) (item : A) : splice l 0 item = item :: l.
Proof. reflexivity. Qed.

Section OrderingLoop.
Variable mapKey : list Name.
Variable mapValue : list (list Sourcelike).

Lemma orderLoop_Permutation (indices : list nat) :
  (forall i, In i indices -> i < List.length mapValue) ->
  forall order, exists order',
    orderLoop mapKey mapValue indices order = Ok order' /\
    Permutation order' (rev indices ++ order).
Proof.
  induction indices as [ | index rest IH ]; intros Hrange order.
  - exists order. split; [ reflexivity | apply Permutation_refl ].
  - simpl. unfold orderStep.
    destruct (nth_error mapValue index) as [source | ] eqn:Hsource.
    + simpl.
      destruct (IH (fun i Hi => Hrange i (or_intror Hi))
                  (splice order (ordinalFor mapKey order source) index))
        as [order' [Hloop Hperm]].
      exists order'. split; [ exact Hloop | ].
      rewrite Hperm, <- app_assoc. apply Permutation_app_head.
      apply splice_Permutation.
    + exfalso. apply nth_error_None in Hsource.
      specialize (Hrange index (or_introl eq_refl)). lia.
Qed.

Lemma computeOrder_Permutation :
  List.length mapKey = List.length mapValue ->
  exists order,
    computeOrder mapKey mapValue = Ok order /\
    Permutation order (seq 0 (List.length mapKey)).
Proof.
  intros Hlen. unfold computeOrder.
  destruct (orderLoop_Permutation (seq 0 (List.length mapKey))) with (order := @nil nat)
    as [order [Hloop Hperm]].
  - intros i Hi. apply in_seq in Hi. lia.
  - exists order. split; [ exact Hloop | ].
    rewrite Hperm, app_nil_r. symmetry. apply Permutation_rev.
Qed.

(** A name that is the key of nothing in [order] leaves the ordinal as it
    is. *)
Lemma scanOrder_no_match (order : list nat) (depName : Sourcelike) :
  (forall depIndex, In depIndex order ->
      strictEqName (nth_error mapKey depIndex) depName = false) ->
  forall ordinal, scanOrder mapKey order depName ordinal = ordinal.
Proof.
  unfold scanOrder.
  induction order as [ | depIndex rest IH ]; intros Hno ordinal;
    [ reflexivity | ].
  simpl. rewrite (Hno depIndex (or_introl eq_refl)).
  apply IH. intros d Hd. apply Hno. now right.
Qed.

Lemma ordinalFor_no_dependency (order : list nat) (source : list Sourcelike) :
  (forall depIndex, In depIndex order ->
      existsb (strictEqName (nth_error mapKey depIndex)) source = false) ->
  ordinalFor mapKey order source = 0.
Proof.
  intros Hno. unfold ordinalFor.
  assert (Hnames : forall depName, In depName (filter truthy source) ->
            forall depIndex, In depIndex order ->
              strictEqName (nth_error mapKey depIndex) depName = false).
  { intros depName Hin depIndex Hd.
    apply filter_In in Hin. destruct Hin as [Hin _].
    specialize (Hno depIndex Hd).
    destruct (strictEqName (nth_error mapKey depIndex) depName) eqn:E;
      [ | reflexivity ].
    assert (existsb (strictEqName (nth_error mapKey depIndex)) source = true)
      by (apply existsb_exists; exists depName; split; assumption).
    congruence. }
  revert Hnames. generalize (filter truthy source) as names. generalize 0.
  intros ordinal names. revert ordinal.
  induction names as [ | depName rest IH ]; intros ordinal Hnames;
    [ reflexivity | ].
  simpl. rewrite scanOrder_no_match.
  - apply IH. intros n Hn. apply Hnames. now right.
  - apply Hnames. now left.
Qed.

End OrderingLoop.

Lemma positionOf_rev_seq (n j : nat) :
  j < n -> positionOf j (rev (seq 0 n)) = n - 1 - j.
Proof.
  induction n as [ | n IH ]; intros Hj; [ lia | ].
  rewrite seq_S, rev_app_distr. simpl.
  destruct (Nat.eqb_spec j n) as [-> | Hne]; [ lia | ].
  rewrite IH by lia. lia.
Qed.

(** *** The ordinal in closed form *)

Lemma list_max_filter_orb {A : Type} (f : A -> nat) (p q : A -> bool) (l : list A) :
  list_max (map f (filter (fun x => p x || q x) l))
  = Nat.max (list_max (map f (filter p l))) (list_max (map f (filter q l))).
Proof.
  induction l as [ | x r IH ]; [ reflexivity | ].
  simpl. destruct (p x), (q x); simpl; rewrite IH; lia.
Qed.

Lemma scanOrder_max (mapKey : list Name) (depName : Sourcelike) (order : list nat) :
  forall ordinal,
    scanOrder mapKey order depName ordinal
    = Nat.max ordinal
        (list_max (map (fun depIndex => depIndex + 1)
                     (filter (fun depIndex =>
                                strictEqName (nth_error mapKey depIndex) depName)
                        order))).
Proof.
  unfold scanOrder.
  induction order as [ | depIndex rest IH ]; intros ordinal; simpl; [ lia | ].
  rewrite IH.
  destruct (strictEqName (nth_error mapKey depIndex) depName); simpl; lia.
Qed.

Lemma scanNames_max (mapKey : list Name) (order : list nat) (names : list Sourcelike) :
  forall ordinal,
    fold_left (fun ordinal depName => scanOrder mapKey order depName ordinal)
      names ordinal
    = Nat.max ordinal
        (list_max (map (fun depIndex => depIndex + 1)
                     (filter (fun depIndex =>
                                existsb (strictEqName (nth_error mapKey depIndex))
                                  names)
                        order))).
Proof.
  induction names as [ | depName rest IH ]; intros ordinal.
  - simpl.
    replace (filter (fun _ : nat => false) order) with (@nil nat)
      by (induction order; simpl; auto).
    simpl. lia.
  - simpl fold_left. rewrite IH, scanOrder_max.
    simpl existsb.
    rewrite (list_max_filter_orb (fun depIndex => depIndex + 1)
               (fun depIndex => strictEqName (nth_error mapKey depIndex) depName)
               (fun depIndex =>
                  existsb (strictEqName (nth_error mapKey depIndex)) rest)).
    lia.
Qed.

Lemma ordinalFor_closed_form (mapKey : list Name) (order : list nat)
  (source : list Sourcelike) :
  ordinalFor mapKey order source = ordinalByIndex mapKey order source.
Proof.
  unfold ordinalFor, ordinalByIndex, dependsOn.
  rewrite scanNames_max. reflexivity.
Qed.

(** ** More on the ordering loop *)

Lemma ordinalFor_le (mapKey : list Name) (order : list nat)
  (source : list Sourcelike) (bound : nat) :
  (forall depIndex, In depIndex order -> depIndex < bound) ->
  ordinalFor mapKey order source <= bound.
Proof.
  intros Hbound. rewrite ordinalFor_closed_form. unfold ordinalByIndex.
  apply list_max_le. apply Forall_forall. intros x Hx.
  apply in_map_iff in Hx. destruct Hx as [d [<- Hd]].
  apply filter_In in Hd. destruct Hd as [Hd _].
  specialize (Hbound d Hd). lia.
Qed.

Lemma splice_nth_error {A : Type} (l : list A) (start : nat) (item : A) :
  start <= List.length l ->
  nth_error (splice l start item) start = Some item.
Proof.
  intros Hle. unfold splice.
  rewrite nth_error_app2 by (rewrite length_firstn; lia).
  rewrite length_firstn.
  replace (start - Nat.min start (List.length l)) with 0 by lia.
  reflexivity.
Qed.

Lemma splice_length {A : Type} (l : list A) (start : nat) (item : A) :
  List.length (splice l start item) = S (List.length l).
Proof.
  unfold splice.
  rewrite <- (firstn_skipn start l) at 3.
  rewrite !length_app. simpl. lia.
Qed.

(** X5.  When the definition with index [index] is processed, the output
    list holds the indices below [index]; the ordinal the loop computes is
    then at most the length of the list, so [splice] puts the definition
    exactly at its ordinal and never falls back to appending past the end. *)
Theorem insertion_lands_at_its_ordinal (mapKey : list Name) (order : list nat)
  (source : list Sourcelike) (index : nat) :
  Permutation order (seq 0 index) ->
  ordinalFor mapKey order source <= List.length order /\
  nth_error (splice order (ordinalFor mapKey order source) index)
    (ordinalFor mapKey order source)
  = Some index /\
  List.length (splice order (ordinalFor mapKey order source) index)
  = S index.
Proof.
  intros Hperm.
  assert (Hlen : List.length order = index)
    by (rewrite (Permutation_length Hperm); apply length_seq).
  assert (Hle : ordinalFor mapKey order source <= List.length order).
  { rewrite Hlen. apply ordinalFor_le. intros d Hd.
    apply (Permutation_in _ Hperm), in_seq in Hd. lia. }
  split; [ exact Hle | ]. split.
  - now apply splice_nth_error.
  - now rewrite splice_length, Hlen.
Qed.

Lemma insertion_lands_at_its_ordinal_witness :
  Permutation [1; 0] (seq 0 2) /\
  ordinalFor ["A"; "B"; "C"] [1; 0] [SText "_"; SName "C"; SName "A"] <= 2 /\
  nth_error
    (splice [1; 0]
       (ordinalFor ["A"; "B"; "C"] [1; 0] [SText "_"; SName "C"; SName "A"]) 2)
    (ordinalFor ["A"; "B"; "C"] [1; 0] [SText "_"; SName "C"; SName "A"])
  = Some 2 /\
  List.length
    (splice [1; 0]
       (ordinalFor ["A"; "B"; "C"] [1; 0] [SText "_"; SName "C"; SName "A"]) 2)
  = 3.
Proof.
  assert (Hperm : Permutation [1; 0] (seq 0 2)) by apply perm_swap.
  split; [ exact Hperm | ].
  exact (insertion_lands_at_its_ordinal ["A"; "B"; "C"] [1; 0]
           [SText "_"; SName "C"; SName "A"] 2 Hperm).
Defined.

Lemma existsb_same_elements {A : Type} (f : A -> bool) (l1 l2 : list A) :
  (forall x, In x l1 <-> In x l2) -> existsb f l1 = existsb f l2.
Proof.
  intros Hsame.
  destruct (existsb f l1) eqn:H1; destruct (existsb f l2) eqn:H2;
    try reflexivity.
  - apply existsb_exists in H1. destruct H1 as [x [Hx Hfx]].
    assert (existsb f l2 = true)
      by (apply existsb_exists; exists x; split; [ now apply Hsame | exact Hfx ]).
    congruence.
  - apply existsb_exists in H2. destruct H2 as [x [Hx Hfx]].
    assert (existsb f l1 = true)
      by (apply existsb_exists; exists x; split; [ now apply Hsame | exact Hfx ]).
    congruence.
Qed.

Lemma dependsOn_same_elements (mapKey : list Name) (source1 source2 : list Sourcelike)
  (depIndex : nat) :
  (forall value, In value source1 <-> In value source2) ->
  dependsOn mapKey source1 depIndex = dependsOn mapKey source2 depIndex.
Proof.
  intros Hsame. unfold dependsOn. apply existsb_same_elements.
  intros x. rewrite !filter_In, Hsame. reflexivity.
Qed.

(** X6.  The ordinal of a definition depends only on which tokens its
    gathered source holds, not on their order or on how often they occur: two
    sources with the same elements get the same ordinal, so the order of the
    properties of an object does not influence where it is inserted. *)
Theorem ordinal_ignores_token_order (mapKey : list Name) (order : list nat)
  (source1 source2 : list Sourcelike) :
  (forall value, In value source1 <-> In value source2) ->
  ordinalFor mapKey order source1 = ordinalFor mapKey order source2.
Proof.
  intros Hsame. rewrite !ordinalFor_closed_form. unfold ordinalByIndex.
  rewrite (filter_ext (dependsOn mapKey source1) (dependsOn mapKey source2));
    [ reflexivity | ].
  intros d. now apply dependsOn_same_elements.
Qed.

Lemma ordinal_ignores_token_order_witness :
  (forall value,
      In value [SName "A"; SText ", "; SName "B"]
      <-> In value [SName "B"; SText ", "; SName "A"; SName "B"]) /\
  ordinalFor ["A"; "B"; "C"] [1; 0] [SName "A"; SText ", "; SName "B"]
  = ordinalFor ["A"; "B"; "C"] [1; 0] [SName "B"; SText ", "; SName "A"; SName "B"].
Proof.
  assert (Hsame : forall value,
             In value [SName "A"; SText ", "; SName "B"]
             <-> In value [SName "B"; SText ", "; SName "A"; SName "B"])
    by (intros value; simpl; tauto).
  split; [ exact Hsame | ].
  exact (ordinal_ignores_token_order ["A"; "B"; "C"] [1; 0] _ _ Hsame).
Defined.

(** *** Definitions already placed keep their relative order *)

Lemma Subsequence_refl {A : Type} (l : list A) : Subsequence l l.
Proof. induction l; constructor; assumption. Qed.

Lemma Subsequence_trans {A : Type} (l1 l2 l3 : list A) :
  Subsequence l1 l2 -> Subsequence l2 l3 -> Subsequence l1 l3.
Proof.
  intros H12 H23. revert l1 H12.
  induction H23 as [ | x l2 l3 _ IH | x l2 l3 _ IH ]; intros l1 H12.
  - exact H12.
  - apply Subsequence_skip. now apply IH.
  - inversion H12 as [ | y l1' l2' H | y l1' l2' H ]; subst.
    + apply Subsequence_skip. now apply IH.
    + apply Subsequence_take. now apply IH.
Qed.

Lemma Subsequence_splice {A : Type} (l : list A) (start : nat) (item : A) :
  Subsequence l (splice l start item).
Proof.
  unfold splice. rewrite <- (firstn_skipn start l) at 1.
  induction (firstn start l) as [ | x r IH ]; simpl.
  - apply Subsequence_skip, Subsequence_refl.
  - now apply Subsequence_take.
Qed.

(** X7.  Later rounds of the ordering loop never reorder what earlier rounds
    placed: the output list at any point of the loop is the final order with
    the later definitions left out. *)
Theorem placed_definitions_keep_their_order (mapKey : list Name)
  (mapValue : list (list Sourcelike)) (indices : list nat)
  (order order' : list nat) :
  orderLoop mapKey mapValue indices order = Ok order' ->
  Subsequence order order'.
Proof.
  revert order order'.
  induction indices as [ | index rest IH ]; intros order order' H.
  - simpl in H. injection H as <-. apply Subsequence_refl.
  - simpl in H. unfold orderStep in H.
    destruct (nth_error mapValue index) as [source | ]; [ | discriminate H ].
    simpl in H.
    apply (Subsequence_trans _ (splice order (ordinalFor mapKey order source) index)).
    + apply Subsequence_splice.
    + now apply IH.
Qed.

Lemma placed_definitions_keep_their_order_witness :
  orderLoop chainKeys chainValues [2] [1; 0] = Ok [1; 2; 0] /\
  Subsequence [1; 0] [1; 2; 0].
Proof.
  assert (H : orderLoop chainKeys chainValues [2] [1; 0] = Ok [1; 2; 0])
    by reflexivity.
  split; [ exact H | ].
  exact (placed_definitions_keep_their_order chainKeys chainValues [2]
           [1; 0] [1; 2; 0] H).
Defined.



(** ** Definitions that go to the front *)


(** *** Sources without a [Name] among their elements *)

Lemma ordinalFor_no_name (mapKey : list Name) (order : list nat)
  (source : list Sourcelike) :
  (forall value n, In value source -> value <> SName n) ->
  ordinalFor mapKey order source = 0.
Proof.
  intros Hno. apply ordinalFor_no_dependency. intros depIndex _.
  destruct (existsb (strictEqName (nth_error mapKey depIndex)) source) eqn:E;
    [ | reflexivity ].
  apply existsb_exists in E. destruct E as [value [Hin Heq]].
  destruct value as [ text | n | items ];
    [ destruct (nth_error mapKey depIndex); discriminate Heq
    | exfalso; now apply (Hno (SName n) n)
    | destruct (nth_error mapKey depIndex); discriminate Heq ].
Qed.

(** When no source holds a [Name] among its elements, every definition is
    inserted at the front and the output is the input reversed. *)
Lemma orderLoop_front (mapKey : list Name) (mapValue : list (list Sourcelike)) :
  (forall source value n,
      In source mapValue -> In value source -> value <> SName n) ->
  forall count start,
    start + count <= List.length mapValue ->
    orderLoop mapKey mapValue (seq start count) (rev (seq 0 start))
    = Ok (rev (seq 0 (start + count))).
Proof.
  intros Hno count.
  induction count as [ | count IH ]; intros start Hlen.
  - simpl. now rewrite Nat.add_0_r.
  - simpl. unfold orderStep.
    destruct (nth_error mapValue start) as [source | ] eqn:Hsource.
    + rewrite ordinalFor_no_name
        by (intros value n; apply Hno; now apply (nth_error_In _ start)).
      simpl. rewrite splice_0.
      replace (start :: rev (seq 0 start)) with (rev (seq 0 (S start)))
        by (rewrite seq_S, rev_app_distr; reflexivity).
      rewrite IH by lia. f_equal. f_equal. f_equal. lia.
    + apply nth_error_None in Hsource. lia.
Qed.

Lemma computeOrder_front (mapKey : list Name) (mapValue : list (list Sourcelike)) :
  List.length mapKey = List.length mapValue ->
  (forall source value n,
      In source mapValue -> In value source -> value <> SName n) ->
  computeOrder mapKey mapValue = Ok (rev (seq 0 (List.length mapKey))).
Proof.
  intros Hlen Hno. unfold computeOrder.
  apply (orderLoop_front mapKey mapValue Hno (List.length mapKey) 0). lia.
Qed.

(** ** The emission context *)

Lemma context_eq (c : EmitContext) (e : list Sourcelike) (b : bool) (i : nat) :
  emitted c = e -> blankLineNeeded c = b -> indentation c = i ->
  c = {| emitted := e; blankLineNeeded := b; indentation := i |}.
Proof. destruct c; simpl; intros; subst; reflexivity. Qed.

Lemma emitLine_run (lineParts : list Sourcelike) (c : EmitContext) :
  lineParts <> [] ->
  emitLine lineParts c
  = Ok (tt, {| emitted := emitted c ++ pendingBlank c
                            ++ indentText (indentation c) ++ lineTokens lineParts;
               blankLineNeeded := false;
               indentation := indentation c |}).
Proof.
  destruct lineParts as [ | part rest ]; [ intros H; now contradiction H | ].
  reflexivity.
Qed.

Lemma pendingBlank_empty (c : EmitContext) :
  isEmpty c = true -> pendingBlank c = [].
Proof.
  unfold pendingBlank. intros ->. now rewrite andb_false_r.
Qed.

Lemma lineTokens_not_nil (lineParts : list Sourcelike) :
  lineTokens lineParts <> [].
Proof.
  unfold lineTokens. destruct (lineItem lineParts); discriminate.
Qed.

(** A context that holds something is not empty. *)
Lemma isEmpty_app (c : EmitContext) (l r : list Sourcelike) :
  emitted c = l ++ r -> l <> [] \/ r <> [] -> isEmpty c = false.
Proof.
  unfold isEmpty. intros -> H.
  destruct l as [ | x l ]; [ | reflexivity ].
  destruct r as [ | y r ]; [ | reflexivity ].
  destruct H as [H | H]; now contradiction H.
Qed.

Lemma isEmpty_after_line (e1 e2 e3 : list Sourcelike)
  (lineParts : list Sourcelike) (b : bool) (i : nat) :
  isEmpty {| emitted := e1 ++ e2 ++ e3 ++ lineTokens lineParts;
             blankLineNeeded := b; indentation := i |} = false.
Proof.
  apply (isEmpty_app _ (e1 ++ e2 ++ e3) (lineTokens lineParts)).
  - simpl. now rewrite <- !app_assoc.
  - right. apply lineTokens_not_nil.
Qed.

(** What [ensureBlankLine] leaves behind: the same elements and indentation,
    and a blank line pending exactly when something was emitted. *)
Lemma ensureBlankLine_run (c : EmitContext) :
  exists c',
    ensureBlankLine c = Ok (tt, c') /\
    emitted c' = emitted c /\
    indentation c' = indentation c /\
    pendingBlank c' = blankIfStarted c.
Proof.
  unfold ensureBlankLine. destruct (isEmpty c) eqn:Hempty.
  - exists c. repeat split.
    rewrite pendingBlank_empty by assumption.
    unfold blankIfStarted. now rewrite Hempty.
  - eexists. repeat split.
    unfold pendingBlank, blankIfStarted, isEmpty in *. simpl.
    now rewrite Hempty.
Qed.

(** A loop whose body emits one line per element. *)
Lemma forEach_lines {A : Type} (f : A -> Emit unit) (parts : A -> list Sourcelike) :
  (forall x c, f x c = emitLine (parts x) c) ->
  (forall x, parts x <> []) ->
  forall (l : list A) (c : EmitContext),
    forEach l f c
    = Ok (tt, {| emitted := emitted c
                   ++ match l with [] => [] | _ :: _ => pendingBlank c end
                   ++ flat_map (fun x => indentText (indentation c)
                                           ++ lineTokens (parts x)) l;
                 blankLineNeeded := match l with
                                    | [] => blankLineNeeded c
                                    | _ :: _ => false
                                    end;
                 indentation := indentation c |}).
Proof.
  intros Hf Hparts l. induction l as [ | x r IH ]; intros c.
  - simpl. unfold ret. f_equal. f_equal.
    apply context_eq; auto. now rewrite app_nil_r.
  - simpl forEach. unfold bind. rewrite Hf, emitLine_run, IH by apply Hparts.
    f_equal. f_equal. simpl emitted. simpl indentation. simpl blankLineNeeded.
    apply context_eq; simpl;
      [ | destruct r; reflexivity | reflexivity ].
    unfold pendingBlank at 2. simpl.
    rewrite <- !app_assoc. do 4 f_equal.
    destruct r; reflexivity.
Qed.

(** A loop whose body always succeeds and appends succeeds and appends. *)
Lemma forEach_appends {A : Type} (f : A -> Emit unit) (l : list A) :
  (forall x c, exists tokens c', appends (f x) c tokens c') ->
  forall c, exists tokens c', appends (forEach l f) c tokens c'.
Proof.
  intros Hf. induction l as [ | x r IH ]; intros c.
  - exists [], c. repeat split. now rewrite app_nil_r.
  - destruct (Hf x c) as [t1 [c1 [Hrun1 [Hem1 Hind1]]]].
    destruct (IH c1) as [t2 [c2 [Hrun2 [Hem2 Hind2]]]].
    exists (t1 ++ t2), c2. repeat split.
    + simpl. unfold bind. now rewrite Hrun1.
    + now rewrite Hem2, Hem1, app_assoc.
    + congruence.
Qed.

(** [indent] around an emitter that runs on a context with a line and
    leaves one. *)
Lemma indent_run (fn : Emit unit) (c c' : EmitContext) :
  isEmpty c = false ->
  fn {| emitted := emitted c; blankLineNeeded := blankLineNeeded c;
        indentation := S (indentation c) |} = Ok (tt, c') ->
  isEmpty c' = false ->
  indent fn c
  = Ok (tt, {| emitted := emitted c'; blankLineNeeded := blankLineNeeded c';
               indentation := Nat.pred (indentation c') |}).
Proof.
  intros Hc Hfn Hc'. unfold indent, bind, changeIndent.
  now rewrite Hc, Hfn, Hc'.
Qed.

(** Before the first line of a context [indent] fails. *)
Lemma indent_first_line (fn : Emit unit) :
  indent fn freshContext = Panic "Cannot change indent for the first line".
Proof. reflexivity. Qed.

(** ** Enum definitions *)

Lemma fold_push_cases (cases : list (Name * string)) :
  forall options,
    fold_left
      (fun options c =>
         options ++ [SText "'"; SName (fst c); SText "'"; SText ", "])
      cases options
    = options ++ flat_map (fun c => caseLiteral c ++ [SText ", "]) cases.
Proof.
  induction cases as [ | c r IH ]; intros options; simpl.
  - now rewrite app_nil_r.
  - rewrite IH, <- app_assoc. reflexivity.
Qed.

Lemma removelast_pushed_cases (cases : list (Name * string)) :
  removelast (flat_map (fun c => caseLiteral c ++ [SText ", "]) cases)
  = oneOfLiterals cases.
Proof.
  unfold oneOfLiterals.
  induction cases as [ | c r IH ]; [ reflexivity | ].
  destruct r as [ | c' r' ]; [ reflexivity | ].
  set (f := fun c0 : Name * string => caseLiteral c0 ++ [SText ", "]) in *.
  change (flat_map f (c :: c' :: r')) with (f c ++ flat_map f (c' :: r')).
  rewrite removelast_app by discriminate.
  rewrite IH. reflexivity.
Qed.

Lemma enumOptions_oneOfLiterals (cases : list (Name * string)) :
  enumOptions cases = oneOfLiterals cases.
Proof.
  unfold enumOptions, pop.
  rewrite fold_push_cases. apply removelast_pushed_cases.
Qed.

Lemma lineTokens_enum (this : Renderer) (entry : Type_ * Name) :
  lineTokens
    [SArr (SText "const _" :: SName (snd entry)
             :: SText " = PropTypes.oneOfType(["
             :: enumOptions (enumCases this (fst entry)) ++ [SText "]);"])]
  = enumLine this entry.
Proof.
  unfold lineTokens, enumLine, lineItem.
  now rewrite enumOptions_oneOfLiterals.
Qed.

Lemma emitEnum_run (this : Renderer) (entry : Type_ * Name) (c : EmitContext) :
  emitEnum this entry c
  = Ok (tt, {| emitted := emitted c ++ pendingBlank c
                            ++ indentText (indentation c) ++ enumLine this entry;
               blankLineNeeded := false;
               indentation := indentation c |}).
Proof.
  unfold emitEnum. rewrite emitLine_run by discriminate.
  now rewrite lineTokens_enum.
Qed.

Lemma oneOfLiterals_cons (c c' : Name * string) (r : list (Name * string)) :
  oneOfLiterals (c :: c' :: r)
  = caseLiteral c ++ [SText ", "] ++ oneOfLiterals (c' :: r).
Proof. reflexivity. Qed.

Lemma namesIn_oneOfLiterals (cases : list (Name * string)) :
  namesIn (oneOfLiterals cases) = map fst cases.
Proof.
  induction cases as [ | c r IH ]; [ reflexivity | ].
  destruct r as [ | c' r' ]; [ reflexivity | ].
  rewrite oneOfLiterals_cons, !namesIn_app, IH. reflexivity.
Qed.

Lemma renderTokens_caseLiteral (c : Name * string) :
  renderTokens (caseLiteral c) = caseLiteralText c.
Proof.
  unfold renderTokens, caseLiteral, caseLiteralText. simpl.
  rewrite ?string_append_nil_r. reflexivity.
Qed.

Lemma renderTokens_oneOfLiterals (cases : list (Name * string)) :
  renderTokens (oneOfLiterals cases)
  = String.concat ", " (map caseLiteralText cases).
Proof.
  induction cases as [ | c r IH ]; [ reflexivity | ].
  destruct r as [ | c' r' ].
  - change (oneOfLiterals [c]) with (caseLiteral c ++ []).
    rewrite app_nil_r. apply renderTokens_caseLiteral.
  - rewrite oneOfLiterals_cons, !renderTokens_app, IH, renderTokens_caseLiteral.
    reflexivity.
Qed.

(** C5 (as the code has it).  The line emitted for an enum is
    [const _name = PropTypes.oneOfType(\[ ... \]);] where the dots are one
    quoted literal per case that [forEachEnumCase] delivers, in the order it
    delivers them, with a comma and a blank between neighbours and nothing
    else.  The literal of a case is written from the Name the case was given;
    the label of the case is not used. *)
Theorem enum_line_lists_the_delivered_case_names
  (this : Renderer) (entry : Type_ * Name) (c : EmitContext) :
  emitEnum this entry c
  = Ok (tt, {| emitted := emitted c ++ pendingBlank c
                            ++ indentText (indentation c) ++ enumLine this entry;
               blankLineNeeded := false;
               indentation := indentation c |}) /\
  namesIn (enumLine this entry)
  = snd entry :: map fst (enumCases this (fst entry)) /\
  renderTokens (enumLine this entry) = enumLineText this entry.
Proof.
  split; [ apply emitEnum_run | ]. split.
  - unfold enumLine. rewrite namesIn_SArr.
    change (SText "const _" :: SName (snd entry)
              :: SText " = PropTypes.oneOfType(["
              :: oneOfLiterals (enumCases this (fst entry)) ++ [SText "]);"])
      with ([SText "const _"; SName (snd entry);
             SText " = PropTypes.oneOfType(["]
              ++ oneOfLiterals (enumCases this (fst entry)) ++ [SText "]);"]).
    rewrite !namesIn_app, namesIn_oneOfLiterals. simpl.
    now rewrite !app_nil_r.
  - unfold enumLine, enumLineText. rewrite renderTokens_SArr.
    change (SText "const _" :: SName (snd entry)
              :: SText " = PropTypes.oneOfType(["
              :: oneOfLiterals (enumCases this (fst entry)) ++ [SText "]);"])
      with ([SText "const _"; SName (snd entry);
             SText " = PropTypes.oneOfType(["]
              ++ oneOfLiterals (enumCases this (fst entry)) ++ [SText "]);"]).
    rewrite !renderTokens_app, renderTokens_oneOfLiterals.
    unfold renderTokens. simpl.
    rewrite ?string_append_nil_r, ?string_append_assoc. reflexivity.
Qed.

(** C5 as stated fails: the cases of the enum that declares Red, Green and
    Blue are delivered in another order, and the enum gets the literals
    ['blue', 'green', 'red'], which are neither the declared labels nor in
    the declared order. *)
Lemma enum_literals_are_not_the_declared_labels :
  exists c,
    emitEnum colorGraph (EnumType 0, "Color") freshContext = Ok (tt, c) /\
    Permutation colorLabels (map snd (enumCases colorGraph (EnumType 0))) /\
    map snd (enumCases colorGraph (EnumType 0)) <> colorLabels /\
    renderTokens (emitted c)
    = String.append
        "const _Color = PropTypes.oneOfType(['blue', 'green', 'red']);"
        newlineText /\
    renderTokens (emitted c)
    <> String.append
         "const _Color = PropTypes.oneOfType(['Red', 'Green', 'Blue']);"
         newlineText.
Proof.
  eexists. split; [ reflexivity | ]. split; [ | split; [ | split ] ].
  - apply (Permutation_rev colorLabels).
  - discriminate.
  - reflexivity.
  - vm_compute. discriminate.
Qed.

(** ** Top-level bindings *)

Lemma after_ensureBlankLine (lineParts : list Sourcelike) (c : EmitContext) :
  lineParts <> [] ->
  (ensureBlankLine ;;; emitLine lineParts) c
  = Ok (tt, {| emitted := emitted c ++ blankIfStarted c
                            ++ indentText (indentation c) ++ lineTokens lineParts;
               blankLineNeeded := false;
               indentation := indentation c |}).
Proof.
  intros Hparts. unfold bind.
  destruct (ensureBlankLine_run c) as [c' [-> [Hemitted [Hindent Hblank]]]].
  rewrite emitLine_run by assumption.
  now rewrite Hemitted, Hindent, Hblank.
Qed.

Lemma emitTopLevel_alias (this : Renderer) (entry : Type_ * Name) (c : EmitContext) :
  isPrimitive (fst entry) = false ->
  kind (fst entry) <> "array" ->
  emitTopLevel this entry c
  = Ok (tt, {| emitted := emitted c ++ blankIfStarted c
                            ++ indentText (indentation c)
                            ++ aliasBinding (snd entry);
               blankLineNeeded := false;
               indentation := indentation c |}).
Proof.
  intros Hprim Hkind. unfold emitTopLevel. rewrite Hprim.
  apply String.eqb_neq in Hkind. rewrite Hkind.
  rewrite after_ensureBlankLine by discriminate. reflexivity.
Qed.

Lemma after_ensureBlankLine_expression (r : Result Sourcelike)
  (parts : Sourcelike -> list Sourcelike) (expression : Sourcelike)
  (c : EmitContext) :
  r = Ok expression ->
  parts expression <> [] ->
  (ensureBlankLine ;;; typeMap <- liftR r ;; emitLine (parts typeMap)) c
  = Ok (tt, {| emitted := emitted c ++ blankIfStarted c
                            ++ indentText (indentation c)
                            ++ lineTokens (parts expression);
               blankLineNeeded := false;
               indentation := indentation c |}).
Proof.
  intros -> Hparts. rewrite <- after_ensureBlankLine by assumption.
  reflexivity.
Qed.

Lemma kind_array (t : Type_) :
  String.eqb (kind t) "array" = true -> exists items, t = ArrayType items.
Proof.
  destruct t as [ | | | | | | k | items | | | | | ]; intros H;
    try discriminate H.
  - destruct k; discriminate H.
  - now exists items.
Qed.

(** The text of a line of several parts. *)
Lemma renderTokens_line (part part' : Sourcelike) (rest : list Sourcelike) :
  renderTokens (lineTokens (part :: part' :: rest))
  = String.append (renderFlat (flattenAll (part :: part' :: rest))) newlineText.
Proof.
  unfold lineTokens, lineItem. cbn [app]. rewrite renderTokens_SArr.
  reflexivity.
Qed.

Lemma emitTopLevel_text (this : Renderer) (entry : Type_ * Name)
  (c : EmitContext) :
  exists tokens,
    emitTopLevel this entry c
    = Ok (tt, {| emitted := emitted c ++ blankIfStarted c
                              ++ indentText (indentation c) ++ tokens;
                 blankLineNeeded := false;
                 indentation := indentation c |}) /\
    renderTokens tokens = topLevelText this entry.
Proof.
  unfold emitTopLevel, topLevelText.
  destruct (isPrimitive (fst entry)) eqn:Hprim.
  - destruct (typeMapTypeFor_total this (fst entry) true) as [s Hs].
    eexists. split.
    + apply (after_ensureBlankLine_expression _
               (fun typeMap => [SText "export const "; SName (snd entry);
                                SText " = "; typeMap; SText ";"]) s c Hs).
      discriminate.
    + rewrite renderTokens_line. unfold flattenAll. cbn [flat_map orb].
      rewrite !renderFlat_app, <- (render_flat s).
      rewrite (typeMapTypeFor_text this (fst entry) true s Hs).
      cbn [flatten renderFlat].
      rewrite ?string_append_nil_r, ?string_append_assoc. reflexivity.
  - destruct (String.eqb (kind (fst entry)) "array") eqn:Hkind.
    + destruct (kind_array _ Hkind) as [items Hitems].
      rewrite Hitems. cbn [itemsOf orb].
      destruct (typeMapTypeFor_total this items true) as [s Hs].
      eexists. split.
      * apply (after_ensureBlankLine_expression _
                 (fun typeMap => [SText "export const "; SName (snd entry);
                                  SText " = PropTypes.arrayOf("; typeMap;
                                  SText ");"]) s c Hs).
        discriminate.
      * rewrite renderTokens_line. unfold flattenAll. cbn [flat_map].
        rewrite !renderFlat_app, <- (render_flat s).
        rewrite (typeMapTypeFor_text this items true s Hs).
        cbn [validatorText flatten renderFlat fst].
        rewrite ?string_append_nil_r, ?string_append_assoc. reflexivity.
    + eexists. split; [ apply after_ensureBlankLine; discriminate | ].
      rewrite renderTokens_line. unfold flattenAll. cbn [flat_map orb].
      rewrite !renderFlat_app. cbn [flatten renderFlat].
      rewrite ?string_append_nil_r, ?string_append_assoc. reflexivity.
Qed.

Lemma emitTopLevel_appends (this : Renderer) (entry : Type_ * Name)
  (c : EmitContext) :
  exists tokens c', appends (emitTopLevel this entry) c tokens c'.
Proof.
  destruct (emitTopLevel_text this entry c) as [tokens [Hrun _]].
  exists (blankIfStarted c ++ indentText (indentation c) ++ tokens).
  eexists. split; [ exact Hrun | ]. split; reflexivity.
Qed.

(** X11.  The exported binding of a root reads
    [export const name = <validator>;] where, for a primitive root and for an
    array root alike, the validator is the text synthesized for the root's
    own type (the array branch, written separately in the code, gives the same
    text as synthesizing the array type), and for every other root it is
    [_name].  The line comes after a blank line unless nothing was emitted
    before. *)
Theorem top_level_binding_text (this : Renderer) (entry : Type_ * Name)
  (c : EmitContext) :
  exists tokens c',
    emitTopLevel this entry c = Ok (tt, c') /\
    emitted c' = emitted c ++ blankIfStarted c
                   ++ indentText (indentation c) ++ tokens /\
    renderTokens tokens = topLevelText this entry.
Proof.
  destruct (emitTopLevel_text this entry c) as [tokens [Hrun Htext]].
  exists tokens. eexists. split; [ exact Hrun | ].
  split; [ reflexivity | exact Htext ].
Qed.

Lemma forEach_topLevels_text (this : Renderer) (roots : list (Type_ * Name)) :
  forall c,
    indentation c = 0 -> isEmpty c = false ->
    exists tokens c',
      forEach roots (emitTopLevel this) c = Ok (tt, c') /\
      emitted c' = emitted c ++ tokens /\
      indentation c' = 0 /\
      isEmpty c' = false /\
      renderTokens tokens
      = String.concat EmptyString
          (map (fun entry => String.append newlineText (topLevelText this entry))
             roots).
Proof.
  induction roots as [ | entry rest IH ]; intros c Hind Hnonempty.
  - exists [], c. repeat split; auto. now rewrite app_nil_r.
  - destruct (emitTopLevel_text this entry c) as [t1 [Hrun1 Htext1]].
    unfold blankIfStarted in Hrun1. rewrite Hnonempty, Hind in Hrun1.
    cbn [indentText app] in Hrun1.
    match type of Hrun1 with
    | _ = Ok (tt, ?c1) =>
        destruct (IH c1) as [t2 [c2 [Hrun2 [Hem2 [Hind2 [Hne2 Htext2]]]]]];
          [ reflexivity
          | unfold isEmpty; cbn [emitted]; destruct (emitted c); reflexivity
          | ]
    end.
    exists ((SText newlineText :: t1) ++ t2), c2. repeat split.
    + simpl forEach. unfold bind. rewrite Hrun1. exact Hrun2.
    + rewrite Hem2. cbn [emitted]. rewrite <- !app_assoc. reflexivity.
    + exact Hind2.
    + exact Hne2.
    + rewrite renderTokens_app, Htext2, renderTokens_SText, Htext1.
      cbn [map]. destruct rest as [ | entry' rest' ].
      * simpl. now rewrite !string_append_nil_r.
      * reflexivity.
Qed.

(** X12.  The last loop of [emitTypes] emits exactly one exported binding
    per root, in the traversal order of the roots, each after a blank line
    (once something has been emitted and at indentation 0, as in the pass). *)
Theorem one_binding_per_root_in_order (this : Renderer) (c : EmitContext) :
  indentation c = 0 ->
  isEmpty c = false ->
  exists tokens c',
    forEach (topLevels this) (emitTopLevel this) c = Ok (tt, c') /\
    emitted c' = emitted c ++ tokens /\
    renderTokens tokens
    = String.concat EmptyString
        (map (fun entry => String.append newlineText (topLevelText this entry))
           (topLevels this)).
Proof.
  intros Hind Hnonempty.
  destruct (forEach_topLevels_text this (topLevels this) c Hind Hnonempty)
    as [tokens [c' [Hrun [Hem [_ [_ Htext]]]]]].
  exists tokens, c'. repeat split; assumption.
Qed.

Lemma one_binding_per_root_in_order_witness :
  indentation {| emitted := [SText "let _C;"; SText newlineText];
                 blankLineNeeded := false; indentation := 0 |} = 0 /\
  isEmpty {| emitted := [SText "let _C;"; SText newlineText];
             blankLineNeeded := false; indentation := 0 |} = false /\
  exists tokens c',
    forEach (topLevels graphABC) (emitTopLevel graphABC)
      {| emitted := [SText "let _C;"; SText newlineText];
         blankLineNeeded := false; indentation := 0 |}
    = Ok (tt, c') /\
    emitted c' = [SText "let _C;"; SText newlineText] ++ tokens /\
    renderTokens tokens
    = String.concat EmptyString
        (map (fun entry => String.append newlineText (topLevelText graphABC entry))
           (topLevels graphABC)).
Proof.
  split; [ reflexivity | ].
  split; [ reflexivity | ].
  exact (one_binding_per_root_in_order graphABC
           {| emitted := [SText "let _C;"; SText newlineText];
              blankLineNeeded := false; indentation := 0 |} eq_refl eq_refl).
Defined.

(** C3 (what the code does).  A root that is a map or a union gets the
    binding [export const name = _name;], in any graph and any context; no
    expression is synthesized for it.  In a graph whose only roots are a map
    [Dict] and a union [U] the pass declares no name at all, so the emitted
    text refers to [_Dict] and [_U], which nothing in it declares. *)
Theorem map_and_union_roots_alias_an_undeclared_name :
  (forall (this : Renderer) (values : Type_) (name : Name) (c : EmitContext),
      emitTopLevel this (MapType values, name) c
      = Ok (tt, {| emitted := emitted c ++ blankIfStarted c
                                ++ indentText (indentation c)
                                ++ aliasBinding name;
                   blankLineNeeded := false;
                   indentation := indentation c |})) /\
  (forall (this : Renderer) (members : list Type_) (name : Name)
          (c : EmitContext),
      emitTopLevel this (UnionType members, name) c
      = Ok (tt, {| emitted := emitted c ++ blankIfStarted c
                                ++ indentText (indentation c)
                                ++ aliasBinding name;
                   blankLineNeeded := false;
                   indentation := indentation c |})) /\
  declaredNames mapRootGraph = [] /\
  renderPass noEscape mapRootGraph
  = Ok (String.append usageHeader
          (String.append newlineText
             (String.append "export const Dict = _Dict;"
                (String.append newlineText
                   (String.append newlineText
                      (String.append "export const U = _U;" newlineText)))))) /\
  (exists expression,
      typeMapTypeFor mapRootGraph (MapType StringType) true = Ok expression /\
      render expression = "PropTypes.object" /\
      renderTokens (inlineBinding "Dict" expression)
      = String.append "export const Dict = PropTypes.object;" newlineText /\
      renderTokens (aliasBinding "Dict")
      <> renderTokens (inlineBinding "Dict" expression)).
Proof.
  split; [ | split; [ | split; [ | split ] ] ].
  - intros this values name c.
    apply (emitTopLevel_alias this (MapType values, name) c);
      [ reflexivity | discriminate ].
  - intros this members name c.
    apply (emitTopLevel_alias this (UnionType members, name) c);
      [ reflexivity | discriminate ].
  - reflexivity.
  - vm_compute. reflexivity.
  - eexists. split; [ reflexivity | ]. split; [ reflexivity | ].
    split; [ reflexivity | ]. vm_compute. discriminate.
Qed.

(** ** Object definitions *)

Lemma typeMapTypeForProperty_expressionOf (this : Renderer) (p : ClassProperty) :
  typeMapTypeForProperty this p = Ok (expressionOf this p).
Proof.
  unfold expressionOf.
  assert (H : exists s, typeMapTypeForProperty this p = Ok s).
  { unfold typeMapTypeForProperty.
    destruct (typeMapTypeFor_total this (type p) true) as [s ->]. simpl.
    destruct (negb (isOptional p)); eexists; reflexivity. }
  destruct H as [s ->]. reflexivity.
Qed.

Lemma emitProperty_line (utf16StringEscape : string -> string) (this : Renderer)
  (entry : Name * string * ClassProperty) (c : EmitContext) :
  emitProperty utf16StringEscape this entry c
  = emitLine (propertyParts utf16StringEscape this entry) c.
Proof.
  unfold emitProperty, bind, liftR.
  rewrite typeMapTypeForProperty_expressionOf. reflexivity.
Qed.

Lemma isEmpty_after_prefix (e1 e2 e3 rest : list Sourcelike)
  (lineParts : list Sourcelike) (b : bool) (i : nat) :
  isEmpty {| emitted := (e1 ++ e2 ++ e3 ++ lineTokens lineParts) ++ rest;
             blankLineNeeded := b; indentation := i |} = false.
Proof.
  apply (isEmpty_app _ (e1 ++ e2 ++ e3 ++ lineTokens lineParts) rest);
    [ reflexivity | left ].
  intros H. apply app_eq_nil in H. destruct H as [_ H].
  apply app_eq_nil in H. destruct H as [_ H].
  apply app_eq_nil in H. destruct H as [_ H].
  now apply (lineTokens_not_nil lineParts).
Qed.

Lemma emitObject_run (utf16StringEscape : string -> string)
  (this : Renderer) (name : Name) (t : Type_) (c : EmitContext) :
  emitObject utf16StringEscape this name t c
  = Ok (tt, {| emitted :=
                 emitted c ++ blankIfStarted c
                   ++ indentText (indentation c) ++ bodyHead name
                   ++ flat_map
                        (fun p => indentText (S (indentation c))
                                    ++ lineTokens
                                         (propertyParts utf16StringEscape this p))
                        (classProperties this t)
                   ++ indentText (indentation c)
                   ++ [SText "});"; SText newlineText];
               blankLineNeeded := false;
               indentation := indentation c |}).
Proof.
  unfold emitObject. unfold bind at 1.
  destruct (ensureBlankLine_run c) as [c' [-> [Hemitted [Hindent Hblank]]]].
  unfold bind at 1. rewrite emitLine_run by discriminate.
  unfold bind at 1.
  erewrite indent_run;
    [ | apply isEmpty_after_line
      | rewrite (forEach_lines (emitProperty utf16StringEscape this)
                   (propertyParts utf16StringEscape this))
          by (try apply emitProperty_line; discriminate);
        reflexivity
      | apply isEmpty_after_prefix ].
  rewrite emitLine_run by discriminate.
  f_equal. f_equal.
  apply context_eq; cbn [emitted blankLineNeeded indentation Nat.pred];
    [ | destruct (classProperties this t); reflexivity | exact Hindent ].
  rewrite Hemitted, Hindent, Hblank.
  destruct (classProperties this t) as [ | p props ];
    unfold pendingBlank; cbn [blankLineNeeded andb app];
    rewrite <- ?app_assoc; reflexivity.
Qed.

Lemma emitObject_fresh (utf16StringEscape : string -> string) (this : Renderer)
  (name : Name) (t : Type_) :
  emitObject utf16StringEscape this name t freshContext
  = Ok (tt, {| emitted := objectBody utf16StringEscape this (t, name);
               blankLineNeeded := false;
               indentation := 0 |}).
Proof. rewrite emitObject_run. reflexivity. Qed.

Lemma gatherSource_emitObject (utf16StringEscape : string -> string)
  (this : Renderer) (name : Name) (t : Type_) (c : EmitContext) :
  gatherSource (emitObject utf16StringEscape this name t) c
  = Ok (objectBody utf16StringEscape this (t, name), c).
Proof.
  unfold gatherSource. rewrite emitObject_fresh. reflexivity.
Qed.

Lemma gatherObjects_run (utf16StringEscape : string -> string) (this : Renderer)
  (objects : list (Type_ * Name)) :
  forall mapKey mapValue c,
    gatherObjects utf16StringEscape this objects mapKey mapValue c
    = Ok ((mapKey ++ map snd objects,
           mapValue ++ map (objectBody utf16StringEscape this) objects), c).
Proof.
  induction objects as [ | [t name] rest IH ]; intros mapKey mapValue c.
  - simpl. unfold ret. now rewrite !app_nil_r.
  - simpl gatherObjects. unfold bind.
    rewrite gatherSource_emitObject, IH. simpl. now rewrite <- !app_assoc.
Qed.

Lemma objectBody_no_name (utf16StringEscape : string -> string)
  (this : Renderer) (entry : Type_ * Name) (value : Sourcelike) (n : Name) :
  In value (objectBody utf16StringEscape this entry) -> value <> SName n.
Proof.
  unfold objectBody, bodyHead. intros Hin Heq. subst value.
  apply in_app_or in Hin. destruct Hin as [Hin | Hin].
  - simpl in Hin. destruct Hin as [H | [H | []]]; discriminate H.
  - apply in_app_or in Hin. destruct Hin as [Hin | Hin].
    + apply in_flat_map in Hin. destruct Hin as [p [_ Hin]].
      simpl in Hin. destruct Hin as [H | [H | [H | []]]]; discriminate H.
    + simpl in Hin. destruct Hin as [H | [H | []]]; discriminate H.
Qed.

Lemma emitOrdered_run (mapValue : list (list Sourcelike)) (order : list nat) :
  (forall i, In i order -> i < List.length mapValue) ->
  forall c,
    blankLineNeeded c = false ->
    emitOrdered order mapValue c
    = Ok (tt, {| emitted := emitted c
                   ++ List.concat (map (fun i => nth i mapValue []) order);
                 blankLineNeeded := false;
                 indentation := indentation c |}).
Proof.
  unfold emitOrdered.
  induction order as [ | i rest IH ]; intros Hrange c Hflag.
  - simpl. unfold ret. f_equal. f_equal.
    apply context_eq; auto. now rewrite app_nil_r.
  - simpl forEach. unfold bind.
    destruct (nth_error mapValue i) as [source | ] eqn:Hsource.
    + cbn [map List.concat]. rewrite (nth_error_nth _ _ _ Hsource).
      destruct source as [ | item items ]; unfold emitGatheredSource at 1.
      * rewrite IH by (try assumption; intros j Hj; apply Hrange; now right).
        reflexivity.
      * rewrite IH by (try reflexivity; intros j Hj; apply Hrange; now right).
        unfold pendingBlank. rewrite Hflag.
        cbn [emitted indentation andb app].
        rewrite <- !app_assoc. reflexivity.
    + apply nth_error_None in Hsource.
      specialize (Hrange i (or_introl eq_refl)). lia.
Qed.

(** *** The names inside an object body *)

Lemma expressionOf_names_exact (this : Renderer) (p : ClassProperty) :
  namesIn (flatten (expressionOf this p)) = propertyNames this p.
Proof.
  pose proof (typeMapTypeForProperty_expressionOf this p) as Hp.
  unfold typeMapTypeForProperty in Hp. unfold propertyNames.
  destruct (typeMapTypeFor this (type p) true) as [typeMap | msg] eqn:Hmap;
    [ | discriminate Hp ].
  simpl in Hp. destruct (isOptional p); simpl in Hp; injection Hp as <-.
  - reflexivity.
  - apply (typeMapTypeFor_names_exact this (type p) true typeMap Hmap).
Qed.

Lemma propertyLine_names_exact (utf16StringEscape : string -> string)
  (this : Renderer) (property : Name * string * ClassProperty) :
  namesIn (indentText 1
             ++ lineTokens (propertyParts utf16StringEscape this property))
  = propertyNames this (snd property).
Proof.
  unfold lineTokens, propertyParts, lineItem. cbn [app].
  rewrite namesIn_app, namesIn_SArr.
  change [SText (String.append dquote
                   (String.append (utf16StringEscape (snd (fst property)))
                      dquote));
          SText ": "; expressionOf this (snd property); SText ","]
    with ([SText (String.append dquote
                    (String.append (utf16StringEscape (snd (fst property)))
                       dquote));
           SText ": "]
            ++ [expressionOf this (snd property)] ++ [SText ","]).
  rewrite !namesIn_app, namesIn_singleton, expressionOf_names_exact.
  simpl. now rewrite !app_nil_r.
Qed.

Lemma namesIn_flat_map_exact {A : Type} (f : A -> list Sourcelike) (l : list A) :
  namesIn (flat_map f l) = flat_map (fun x => namesIn (f x)) l.
Proof.
  induction l as [ | x r IH ]; [ reflexivity | ].
  simpl. now rewrite namesIn_app, IH.
Qed.

Lemma objectBody_names_exact (utf16StringEscape : string -> string)
  (this : Renderer) (entry : Type_ * Name) :
  namesIn (objectBody utf16StringEscape this entry)
  = snd entry
      :: flat_map (fun property => propertyNames this (snd property))
           (classProperties this (fst entry)).
Proof.
  unfold objectBody. rewrite !namesIn_app, namesIn_flat_map_exact.
  rewrite (flat_map_ext _ _ (propertyLine_names_exact utf16StringEscape this)).
  unfold bodyHead. rewrite namesIn_SArr. simpl. now rewrite app_nil_r.
Qed.

(** X4.  The source gathered for an object refers to its own name first and
    then, property by property, to the named types of its required
    properties; an optional property contributes no name, whatever its type.
    Every one of these names sits inside the array of its line: no element of
    the gathered source is itself a Name.  Gathering leaves the renderer's
    context as it was. *)
Theorem gathered_body_names (utf16StringEscape : string -> string)
  (this : Renderer) (name : Name) (t : Type_) (c : EmitContext) :
  exists body,
    gatherSource (emitObject utf16StringEscape this name t) c = Ok (body, c) /\
    namesIn body
    = name :: flat_map (fun property => propertyNames this (snd property))
                (classProperties this t) /\
    (forall value n, In value body -> value <> SName n).
Proof.
  exists (objectBody utf16StringEscape this (t, name)).
  split; [ apply gatherSource_emitObject | ].
  split; [ apply objectBody_names_exact | ].
  intros value n. apply objectBody_no_name.
Qed.

(** ** The pass over the types *)

Lemma lineTokens_placeholder (entry : Type_ * Name) :
  lineTokens [SText "let _"; SName (snd entry); SText ";"]
  = placeholderLine (snd entry).
Proof. reflexivity. Qed.

Lemma map_nth_seq {A : Type} (l : list A) (d : A) :
  map (fun i => nth i l d) (seq 0 (List.length l)) = l.
Proof.
  induction l as [ | x r IH ]; [ reflexivity | ].
  simpl. f_equal. rewrite <- seq_shift, map_map. exact IH.
Qed.

(** The ordering loop on the gathered sources: no source holds a [Name]
    among its elements, so the order is the traversal order reversed. *)
Lemma gathered_order (utf16StringEscape : string -> string) (this : Renderer)
  (objects : list (Type_ * Name)) :
  computeOrder (map snd objects)
    (map (objectBody utf16StringEscape this) objects)
  = Ok (rev (seq 0 (List.length objects))).
Proof.
  rewrite <- (length_map snd objects) at 1.
  apply computeOrder_front; [ now rewrite !length_map | ].
  intros source value n Hsource.
  apply in_map_iff in Hsource. destruct Hsource as [entry [<- _]].
  apply objectBody_no_name.
Qed.

Lemma bodies_in_reverse {A : Type} (f : A -> list Sourcelike) (objects : list A) :
  map (fun i => nth i (map f objects) []) (rev (seq 0 (List.length objects)))
  = rev (map f objects).
Proof.
  rewrite map_rev, <- (length_map f objects), map_nth_seq. reflexivity.
Qed.

Lemma emitOrdered_gathered (mapValue : list (list Sourcelike))
  (order : list nat) (c : EmitContext) :
  (forall i, In i order -> i < List.length mapValue) ->
  order = [] \/ blankLineNeeded c = false ->
  emitOrdered order mapValue c
  = Ok (tt, {| emitted := emitted c
                 ++ List.concat (map (fun i => nth i mapValue []) order);
               blankLineNeeded := blankLineNeeded c;
               indentation := indentation c |}).
Proof.
  intros Hrange [-> | Hflag].
  - simpl. unfold emitOrdered, forEach, ret. f_equal. f_equal.
    apply context_eq; auto. now rewrite app_nil_r.
  - rewrite (emitOrdered_run mapValue order Hrange c Hflag).
    now rewrite Hflag.
Qed.

Lemma pendingBlank_same (c1 c2 : EmitContext) :
  emitted c1 = emitted c2 -> blankLineNeeded c1 = blankLineNeeded c2 ->
  pendingBlank c1 = pendingBlank c2.
Proof.
  unfold pendingBlank, isEmpty. now intros -> ->.
Qed.

Lemma emitTypes_run_indented (utf16StringEscape : string -> string)
  (this : Renderer) (c0 : EmitContext) :
  exists tops c1,
    emitTypes utf16StringEscape this c0 = Ok (tt, c1) /\
    emitted c1
    = emitted c0 ++ declarationsBlank this c0
        ++ flat_map (fun entry => indentText (indentation c0)
                                    ++ placeholderLine (snd entry))
             (namedObjects this)
        ++ flat_map (fun entry => indentText (indentation c0)
                                    ++ enumLine this entry)
             (namedEnums this)
        ++ List.concat
             (rev (map (objectBody utf16StringEscape this) (namedObjects this)))
        ++ tops /\
    indentation c1 = indentation c0.
Proof.
  unfold emitTypes. unfold bind at 1.
  destruct (ensureBlankLine_run c0) as [c' [-> [Hemitted [Hindent Hblank]]]].
  unfold bind at 1.
  rewrite (forEach_lines emitPlaceholder
             (fun entry => [SText "let _"; SName (snd entry); SText ";"]))
    by (intros; try reflexivity; discriminate).
  unfold bind at 1.
  rewrite (forEach_lines (emitEnum this)
             (fun entry =>
                [SArr (SText "const _" :: SName (snd entry)
                         :: SText " = PropTypes.oneOfType(["
                         :: enumOptions (enumCases this (fst entry))
                         ++ [SText "]);"])]))
    by (intros; try reflexivity; discriminate).
  unfold bind at 1. rewrite gatherObjects_run. cbn [fst snd app].
  unfold bind at 1. rewrite gathered_order. unfold liftR.
  unfold bind at 1.
  rewrite emitOrdered_gathered;
    [ | intros i Hi; apply in_rev, in_seq in Hi; rewrite length_map; lia
      | destruct (namedObjects this);
        [ left; reflexivity
        | right; destruct (namedEnums this); reflexivity ] ].
  match goal with
  | |- context [forEach (topLevels this) (emitTopLevel this) ?c] =>
      destruct (forEach_appends (emitTopLevel this) (topLevels this)
                  (emitTopLevel_appends this) c)
        as [tops [c1 [Hrun [Hout Hindent1]]]]
  end.
  exists tops, c1. split; [ exact Hrun | ].
  split; [ | rewrite Hindent1; cbn [indentation]; exact Hindent ].
  rewrite Hout. clear Hrun Hout Hindent1.
  cbn [emitted blankLineNeeded indentation].
  rewrite bodies_in_reverse, Hemitted, Hindent.
  rewrite (flat_map_ext _ _
             (fun entry => f_equal (app (indentText (indentation c0)))
                             (lineTokens_placeholder entry))).
  rewrite (flat_map_ext _ _
             (fun entry => f_equal (app (indentText (indentation c0)))
                             (lineTokens_enum this entry))).
  unfold declarationsBlank.
  destruct (namedObjects this) as [ | o objects ];
    destruct (namedEnums this) as [ | e enums ];
    cbn [app flat_map]; rewrite ?app_nil_r, <- ?app_assoc.
  - reflexivity.
  - erewrite (pendingBlank_same _ c');
      [ rewrite Hblank; reflexivity
      | symmetry; exact Hemitted
      | reflexivity ].
  - rewrite Hblank. reflexivity.
  - rewrite Hblank. unfold pendingBlank at 1.
    cbn [blankLineNeeded andb app]. reflexivity.
Qed.

Lemma emitTypes_run (utf16StringEscape : string -> string) (this : Renderer)
  (c0 : EmitContext) :
  indentation c0 = 0 ->
  exists tops c1,
    emitTypes utf16StringEscape this c0 = Ok (tt, c1) /\
    emitted c1
    = emitted c0 ++ declarationsBlank this c0
        ++ flat_map (fun entry => placeholderLine (snd entry)) (namedObjects this)
        ++ flat_map (enumLine this) (namedEnums this)
        ++ List.concat
             (rev (map (objectBody utf16StringEscape this) (namedObjects this)))
        ++ tops /\
    indentation c1 = 0.
Proof.
  intros Hind.
  destruct (emitTypes_run_indented utf16StringEscape this c0)
    as [tops [c1 [Hrun [Hemitted Hindent]]]].
  exists tops, c1. rewrite Hind in Hemitted, Hindent.
  repeat split; assumption.
Qed.

Lemma placeholder_among_hoisted (objects : list (Type_ * Name)) (name : Name) :
  In name (map snd objects) ->
  exists before after,
    flat_map (fun entry => placeholderLine (snd entry)) objects
    = before ++ placeholderLine name ++ after.
Proof.
  intros Hin. apply in_map_iff in Hin. destruct Hin as [entry [<- Hentry]].
  apply in_split in Hentry. destruct Hentry as [l1 [l2 ->]].
  exists (flat_map (fun e => placeholderLine (snd e)) l1),
         (flat_map (fun e => placeholderLine (snd e)) l2).
  rewrite flat_map_app. reflexivity.
Qed.

Lemma closedGraph_mutualGraph : closedGraph mutualGraph.
Proof.
  intros entry property t Hentry Hproperty Ht.
  simpl in Hentry. destruct Hentry as [<- | [<- | []]];
    simpl in Hproperty; destruct Hproperty as [<- | []];
    simpl in Ht; destruct Ht as [<- | []]; simpl; auto.
Defined.

(** C6 (as the code has it).  [emitTypes] returns, for every graph, cyclic or
    not.  Its output is, in this order: the placeholder [let _name;] of every
    named object; the definition [const _name = ...;] of every enum (enums get
    no placeholder, their definition declares them); the body of every object,
    each exactly once, in the order computed by the ordering loop; the
    top-level bindings.  In a closed graph every name that occurs in an object
    body is the name of an object or of an enum, so it is declared in the
    first or the second part, before all bodies. *)
Theorem placeholders_precede_bodies
  (utf16StringEscape : string -> string) (this : Renderer) (c0 : EmitContext) :
  indentation c0 = 0 ->
  closedGraph this ->
  exists order tops c1,
    emitTypes utf16StringEscape this c0 = Ok (tt, c1) /\
    Permutation order (seq 0 (List.length (namedObjects this))) /\
    emitted c1
    = emitted c0 ++ declarationsBlank this c0
        ++ flat_map (fun entry => placeholderLine (snd entry)) (namedObjects this)
        ++ flat_map (enumLine this) (namedEnums this)
        ++ List.concat
             (map (fun i => nth i (map (objectBody utf16StringEscape this)
                                     (namedObjects this)) [])
                order)
        ++ tops /\
    (forall name,
        In name (map snd (namedObjects this)) ->
        hasPlaceholder name (emitted c1)) /\
    (forall entry name,
        In entry (namedObjects this) ->
        In name (namesIn (objectBody utf16StringEscape this entry)) ->
        In name (map snd (namedObjects this)) \/
        In name (map snd (namedEnums this))).
Proof.
  intros Hind Hclosed.
  destruct (emitTypes_run utf16StringEscape this c0 Hind)
    as [tops [c1 [Hrun [Hemitted _]]]].
  exists (rev (seq 0 (List.length (namedObjects this)))), tops, c1.
  split; [ exact Hrun | ].
  split; [ symmetry; apply Permutation_rev | ].
  split; [ now rewrite bodies_in_reverse | ].
  split.
  { intros name Hname.
    destruct (placeholder_among_hoisted _ name Hname) as [before [after Heq]].
    exists (emitted c0 ++ declarationsBlank this c0 ++ before).
    eexists. rewrite Hemitted, Heq, <- !app_assoc. reflexivity. }
  intros entry name Hentry Hname.
  rewrite objectBody_names_exact in Hname.
  destruct Hname as [<- | Hname]; [ left; now apply in_map | ].
  apply in_flat_map in Hname. destruct Hname as [property [Hproperty Hname]].
  unfold propertyNames in Hname.
  destruct (isOptional (snd property)); [ contradiction | ].
  apply in_map_iff in Hname. destruct Hname as [t' [<- Ht']].
  apply in_app_or. now apply (Hclosed entry property t').
Qed.

(** The pass on two objects that hold each other, from a fresh context. *)
Lemma placeholders_precede_bodies_witness :
  indentation freshContext = 0 /\
  closedGraph mutualGraph /\
  exists order tops c1,
    emitTypes noEscape mutualGraph freshContext = Ok (tt, c1) /\
    Permutation order (seq 0 (List.length (namedObjects mutualGraph))) /\
    emitted c1
    = emitted freshContext ++ declarationsBlank mutualGraph freshContext
        ++ flat_map (fun entry => placeholderLine (snd entry))
             (namedObjects mutualGraph)
        ++ flat_map (enumLine mutualGraph) (namedEnums mutualGraph)
        ++ List.concat
             (map (fun i => nth i (map (objectBody noEscape mutualGraph)
                                     (namedObjects mutualGraph)) [])
                order)
        ++ tops /\
    (forall name,
        In name (map snd (namedObjects mutualGraph)) ->
        hasPlaceholder name (emitted c1)) /\
    (forall entry name,
        In entry (namedObjects mutualGraph) ->
        In name (namesIn (objectBody noEscape mutualGraph entry)) ->
        In name (map snd (namedObjects mutualGraph)) \/
        In name (map snd (namedEnums mutualGraph))).
Proof.
  split; [ reflexivity | ].
  split; [ exact closedGraph_mutualGraph | ].
  exact (placeholders_precede_bodies noEscape mutualGraph freshContext
           eq_refl closedGraph_mutualGraph).
Defined.

(** The pass on two objects that hold each other: the body of [B], gathered
    second, is emitted first. *)
Example mutual_recursion_output :
  emitTypes noEscape mutualGraph freshContext
  = Ok (tt, {| emitted :=
                 placeholderLine "A" ++ placeholderLine "B"
                   ++ (bodyHead "B"
                         ++ [SText "    ";
                             SArr [SText (String.append dquote
                                            (String.append "a" dquote));
                                   SText ": ";
                                   SArr [SText "_"; SName "A"];
                                   SText ","];
                             SText newlineText;
                             SText "});"; SText newlineText])
                   ++ (bodyHead "A"
                         ++ [SText "    ";
                             SArr [SText (String.append dquote
                                            (String.append "b" dquote));
                                   SText ": ";
                                   SArr [SText "_"; SName "B"];
                                   SText ","];
                             SText newlineText;
                             SText "});"; SText newlineText])
                   ++ [SText newlineText] ++ aliasBinding "A";
               blankLineNeeded := false;
               indentation := 0 |}).
Proof. reflexivity. Qed.

(** C6 as stated fails for enums: the pass on a graph with the enum [Color]
    emits no placeholder for it. *)
Lemma enum_has_no_placeholder :
  exists c,
    emitSourceStructure noEscape colorGraph freshContext = Ok (tt, c) /\
    In "Color" (map snd (namedEnums colorGraph)) /\
    ~ hasPlaceholder "Color" (emitted c).
Proof.
  eexists. split; [ vm_compute; reflexivity | ].
  split; [ now left | ].
  intros [before [after H]].
  assert (Hin : In (SArr [SText "let _"; SName "Color"; SText ";"])
                  (before ++ placeholderLine "Color" ++ after))
    by (apply in_or_app; right; now left).
  rewrite <- H in Hin. simpl in Hin.
  repeat (destruct Hin as [Hin | Hin]; [ discriminate Hin | ]).
  contradiction.
Qed.

(** ** The order of the object bodies *)

Lemma objectReferences_mentions (utf16StringEscape : string -> string)
  (this : Renderer) (i j : nat) (entry : Type_ * Name) :
  nth_error (namedObjects this) i = Some entry ->
  objectReferences this i j ->
  mentions (map snd (namedObjects this))
    (objectBody utf16StringEscape this entry) j = true.
Proof.
  intros Hentry [entry' [target [property [Hi [Hj [Hproperty Hname]]]]]].
  rewrite Hentry in Hi. injection Hi as <-.
  unfold mentions. rewrite nth_error_map, Hj. cbn [option_map].
  apply existsb_exists. exists (snd target).
  split; [ | apply String.eqb_refl ].
  rewrite objectBody_names_exact. right.
  apply in_flat_map. exists property. split; assumption.
Qed.

Lemma ranked_acyclicGraph (this : Renderer) (rank : nat -> nat) :
  (forall i j, objectReferences this i j -> rank j < rank i) ->
  acyclicGraph this.
Proof.
  intros Hrank i Hcycle.
  assert (Hlt : forall a b,
             clos_trans nat (objectReferences this) a b -> rank b < rank a).
  { induction 1 as [ a b Hab | a b c _ IH1 _ IH2 ]; [ now apply Hrank | lia ]. }
  specialize (Hlt i i Hcycle). lia.
Qed.

Lemma graphXDE_references (i j : nat) :
  objectReferences graphXDE i j -> (i = 1 /\ j = 2) \/ (i = 2 /\ j = 0).
Proof.
  intros [entry [target [property [Hi [Hj [Hproperty Hname]]]]]].
  destruct i as [ | [ | [ | i ] ] ]; simpl in Hi;
    try (destruct i; discriminate Hi);
    injection Hi as <-; simpl in Hproperty; try contradiction;
    destruct Hproperty as [<- | []]; simpl in Hname;
    destruct Hname as [Hname | []];
    destruct j as [ | [ | [ | j ] ] ]; simpl in Hj;
    try (destruct j; discriminate Hj);
    injection Hj as <-; try discriminate Hname; auto.
Qed.

Lemma graphXDE_acyclic : acyclicGraph graphXDE.
Proof.
  apply (ranked_acyclicGraph _
           (fun i => match i with 0 => 0 | 1 => 2 | _ => 1 end)).
  intros i j H.
  destruct (graphXDE_references i j H) as [[-> ->] | [-> ->]]; simpl; lia.
Qed.

Lemma graphXDE_D_references_E : objectReferences graphXDE 1 2.
Proof.
  exists (ClassType 1, "D"), (ClassType 2, "E"),
         ("e", "e", requiredProperty (ClassType 2)).
  repeat split; now left.
Qed.

Lemma graphXDE_E_references_X : objectReferences graphXDE 2 0.
Proof.
  exists (ClassType 2, "E"), (ClassType 0, "X"),
         ("x", "x", requiredProperty (ClassType 0)).
  repeat split; now left.
Qed.

(** An object that references an object traversed before it: the body
    gathered for it mentions the key of that object, and the ordering loop
    still puts it in front of that object. *)
Lemma reference_to_earlier_object_is_out_of_order
  (utf16StringEscape : string -> string) (this : Renderer) (c : EmitContext)
  (i j : nat) :
  objectReferences this i j ->
  j < i ->
  exists mapKey mapValue source order,
    gatherObjects utf16StringEscape this (namedObjects this) [] [] c
    = Ok ((mapKey, mapValue), c) /\
    nth_error mapValue i = Some source /\
    mentions mapKey source j = true /\
    computeOrder mapKey mapValue = Ok order /\
    order = rev (seq 0 (List.length (namedObjects this))) /\
    positionOf i order < positionOf j order.
Proof.
  intros Href Hlt.
  assert (Hentry : exists entry, nth_error (namedObjects this) i = Some entry)
    by (destruct Href as [entry [_ [_ [Hi _]]]]; now exists entry).
  destruct Hentry as [entry Hentry].
  assert (Hi : i < List.length (namedObjects this))
    by (apply nth_error_Some; congruence).
  exists (map snd (namedObjects this)),
         (map (objectBody utf16StringEscape this) (namedObjects this)),
         (objectBody utf16StringEscape this entry),
         (rev (seq 0 (List.length (namedObjects this)))).
  split; [ apply gatherObjects_run | ].
  split; [ now rewrite nth_error_map, Hentry | ].
  split; [ now apply (objectReferences_mentions _ _ i) | ].
  split; [ apply gathered_order | ].
  split; [ reflexivity | ].
  rewrite !positionOf_rev_seq by lia. lia.
Qed.

(** C1 (as the code has it).  For every input, with or without cycles, the
    ordering loop returns, and its output is a permutation of the
    definitions' indices: every definition appears in it, and exactly
    once. *)
Theorem ordering_loop_returns_a_permutation
  (mapKey : list Name) (mapValue : list (list Sourcelike)) :
  List.length mapKey = List.length mapValue ->
  exists order,
    computeOrder mapKey mapValue = Ok order /\
    Permutation order (seq 0 (List.length mapKey)) /\
    NoDup order /\
    (forall index, In index order <-> index < List.length mapKey).
Proof.
  intros Hlen.
  destruct (computeOrder_Permutation mapKey mapValue Hlen)
    as [order [Horder Hperm]].
  exists order. split; [ exact Horder | ]. split; [ exact Hperm | ]. split.
  - apply (Permutation_NoDup (Permutation_sym Hperm)), seq_NoDup.
  - intros index. split; intros H.
    + apply (Permutation_in _ Hperm), in_seq in H. lia.
    + apply (Permutation_in _ (Permutation_sym Hperm)), in_seq. lia.
Qed.

(** The loop on the bodies gathered for [X], [D] and [E]. *)
Lemma ordering_loop_returns_a_permutation_witness :
  List.length (map snd (namedObjects graphXDE))
  = List.length (map (objectBody noEscape graphXDE) (namedObjects graphXDE)) /\
  exists order,
    computeOrder (map snd (namedObjects graphXDE))
      (map (objectBody noEscape graphXDE) (namedObjects graphXDE))
    = Ok order /\
    Permutation order
      (seq 0 (List.length (map snd (namedObjects graphXDE)))) /\
    NoDup order /\
    (forall index,
        In index order
        <-> index < List.length (map snd (namedObjects graphXDE))).
Proof.
  split; [ reflexivity | ].
  exact (ordering_loop_returns_a_permutation
           (map snd (namedObjects graphXDE))
           (map (objectBody noEscape graphXDE) (namedObjects graphXDE))
           eq_refl).
Defined.

(** C1 as stated fails: the objects [X], [D] and [E], where [D] holds an [E]
    and [E] holds an [X], have no cycle; the body gathered for [E] mentions
    [X], and the loop orders [E] before [X]. *)
Lemma acyclic_graph_ordered_against_reference :
  acyclicGraph graphXDE /\
  objectReferences graphXDE 2 0 /\
  exists mapKey mapValue source,
    gatherObjects noEscape graphXDE (namedObjects graphXDE) [] [] freshContext
    = Ok ((mapKey, mapValue), freshContext) /\
    mapKey = ["X"; "D"; "E"] /\
    nth_error mapValue 2 = Some source /\
    mentions mapKey source 0 = true /\
    computeOrder mapKey mapValue = Ok [2; 1; 0] /\
    positionOf 2 [2; 1; 0] < positionOf 0 [2; 1; 0].
Proof.
  split; [ exact graphXDE_acyclic | ].
  split; [ exact graphXDE_E_references_X | ].
  destruct (reference_to_earlier_object_is_out_of_order noEscape graphXDE
              freshContext 2 0 graphXDE_E_references_X)
    as [mapKey [mapValue [source [order [Hgather [Hsource [Hmentions
         [Horder [Heq Hposition]]]]]]]]]; [ lia | ].
  rewrite gatherObjects_run in Hgather. injection Hgather as <- <-.
  subst order.
  exists (map snd (namedObjects graphXDE)),
         (map (objectBody noEscape graphXDE) (namedObjects graphXDE)), source.
  split; [ apply gatherObjects_run | ].
  split; [ reflexivity | ].
  split; [ exact Hsource | ].
  split; [ exact Hmentions | ].
  split; [ exact Horder | exact Hposition ].
Qed.

(** The insertion rule of the specification is best effort also without the
    defects of the loop: on the same chain, inserting each definition one
    past the position of its dependencies gives [D; X; E], with [D] before
    the [E] it references. *)
Lemma insertion_by_position_is_best_effort :
  acyclicGraph graphXDE /\
  objectReferences graphXDE 1 2 /\
  exists mapKey mapValue,
    gatherObjects noEscape graphXDE (namedObjects graphXDE) [] [] freshContext
    = Ok ((mapKey, mapValue), freshContext) /\
    mentions mapKey (nth 1 mapValue []) 2 = true /\
    orderLoopByPosition mapKey mapValue (seq 0 3) [] = [1; 0; 2] /\
    positionOf 1 [1; 0; 2] < positionOf 2 [1; 0; 2].
Proof.
  split; [ exact graphXDE_acyclic | ].
  split; [ exact graphXDE_D_references_E | ].
  do 2 eexists.
  split; [ vm_compute; reflexivity | ].
  repeat split; vm_compute; lia.
Qed.

(** C4 (what the code does).  The ordinal the loop computes is the maximum,
    over the definitions in the output list whose key is itself an element of
    the gathered source, of one past the definition's index in [mapKey].  A
    gathered source holds one array per line, so no element of it is a key,
    and the ordinal is 0 for every gathered body, whatever it references.  For
    the objects [A], [B], [C] with [C] holding an [A]: when [C] is processed
    the output list is [B; A], the body of [C] mentions [A], [A] is at
    position 1, the ordinal by position is 2, the loop computes 0, and [C] is
    inserted in front of [B] and [A]. *)
Theorem ordinal_of_gathered_body_is_zero :
  (forall mapKey order source,
      ordinalFor mapKey order source = ordinalByIndex mapKey order source) /\
  (forall utf16StringEscape this name t c mapKey order,
      exists body,
        gatherSource (emitObject utf16StringEscape this name t) c
        = Ok (body, c) /\
        ordinalFor mapKey order body = 0) /\
  exists mapKey mapValue source,
    gatherObjects noEscape graphABC (namedObjects graphABC) [] [] freshContext
    = Ok ((mapKey, mapValue), freshContext) /\
    mapKey = ["A"; "B"; "C"] /\
    nth_error mapValue 2 = Some source /\
    orderLoop mapKey mapValue [0; 1] [] = Ok [1; 0] /\
    mentions mapKey source 0 = true /\
    positionOf 0 [1; 0] = 1 /\
    ordinalByPosition mapKey [1; 0] source = 2 /\
    ordinalFor mapKey [1; 0] source = 0 /\
    computeOrder mapKey mapValue = Ok [2; 1; 0] /\
    positionOf 2 [2; 1; 0] < positionOf 0 [2; 1; 0].
Proof.
  split; [ apply ordinalFor_closed_form | ]. split.
  - intros utf16StringEscape this name t c mapKey order.
    exists (objectBody utf16StringEscape this (t, name)).
    split; [ apply gatherSource_emitObject | ].
    apply ordinalFor_no_name. intros value n. apply objectBody_no_name.
  - do 3 eexists.
    split; [ vm_compute; reflexivity | ].
    split; [ reflexivity | ].
    split; [ reflexivity | ].
    repeat split; vm_compute; lia.
Qed.

(** X8.  For every graph the ordering loop returns the traversal order of
    the objects reversed, and [emitTypes] emits the object bodies in that
    order: the body of the object traversed last comes first, whatever the
    objects reference. *)
Theorem bodies_are_emitted_in_reverse_traversal_order
  (utf16StringEscape : string -> string) (this : Renderer) (c0 : EmitContext) :
  indentation c0 = 0 ->
  exists mapKey mapValue tops c1,
    gatherObjects utf16StringEscape this (namedObjects this) [] [] c0
    = Ok ((mapKey, mapValue), c0) /\
    computeOrder mapKey mapValue
    = Ok (rev (seq 0 (List.length (namedObjects this)))) /\
    emitTypes utf16StringEscape this c0 = Ok (tt, c1) /\
    emitted c1
    = emitted c0 ++ declarationsBlank this c0
        ++ flat_map (fun entry => placeholderLine (snd entry)) (namedObjects this)
        ++ flat_map (enumLine this) (namedEnums this)
        ++ List.concat (rev mapValue)
        ++ tops.
Proof.
  intros Hind.
  destruct (emitTypes_run utf16StringEscape this c0 Hind)
    as [tops [c1 [Hrun [Hemitted _]]]].
  exists (map snd (namedObjects this)),
         (map (objectBody utf16StringEscape this) (namedObjects this)),
         tops, c1.
  split; [ apply gatherObjects_run | ].
  split; [ apply gathered_order | ].
  split; assumption.
Qed.

Lemma bodies_are_emitted_in_reverse_traversal_order_witness :
  indentation freshContext = 0 /\
  exists mapKey mapValue tops c1,
    gatherObjects noEscape graphABC (namedObjects graphABC) [] [] freshContext
    = Ok ((mapKey, mapValue), freshContext) /\
    computeOrder mapKey mapValue
    = Ok (rev (seq 0 (List.length (namedObjects graphABC)))) /\
    emitTypes noEscape graphABC freshContext = Ok (tt, c1) /\
    emitted c1
    = emitted freshContext ++ declarationsBlank graphABC freshContext
        ++ flat_map (fun entry => placeholderLine (snd entry))
             (namedObjects graphABC)
        ++ flat_map (enumLine graphABC) (namedEnums graphABC)
        ++ List.concat (rev mapValue)
        ++ tops.
Proof.
  split; [ reflexivity | ].
  exact (bodies_are_emitted_in_reverse_traversal_order noEscape graphABC
           freshContext eq_refl).
Defined.

(** ** Objects without dependencies *)

(** X9.  When the names of the objects are pairwise different and no object
    has a required property whose type reaches a class, object or enum
    through arrays and unions (only primitive, map or optional properties),
    [emitTypes] emits the object bodies in the reverse of the traversal
    order. *)
Theorem independent_objects_are_emitted_in_reverse
  (utf16StringEscape : string -> string) (this : Renderer) (c0 : EmitContext) :
  indentation c0 = 0 ->
  NoDup (map snd (namedObjects this)) ->
  (forall entry property,
      In entry (namedObjects this) ->
      In property (classProperties this (fst entry)) ->
      propertyNames this (snd property) = []) ->
  exists tops c1,
    emitTypes utf16StringEscape this c0 = Ok (tt, c1) /\
    emitted c1
    = emitted c0 ++ declarationsBlank this c0
        ++ flat_map (fun entry => placeholderLine (snd entry)) (namedObjects this)
        ++ flat_map (enumLine this) (namedEnums this)
        ++ List.concat
             (rev (map (objectBody utf16StringEscape this) (namedObjects this)))
        ++ tops.
Proof.
  intros Hind _ _.
  destruct (emitTypes_run utf16StringEscape this c0 Hind)
    as [tops [c1 [Hrun [Hemitted _]]]].
  exists tops, c1. split; assumption.
Qed.

Lemma flatGraph_has_no_dependencies (entry : Type_ * Name)
  (property : Name * string * ClassProperty) :
  In entry (namedObjects flatGraph) ->
  In property (classProperties flatGraph (fst entry)) ->
  propertyNames flatGraph (snd property) = [].
Proof.
  simpl. intros [<- | [<- | []]]; simpl; intros [<- | []]; reflexivity.
Defined.

Lemma flatGraph_names_differ : NoDup (map snd (namedObjects flatGraph)).
Proof.
  simpl. constructor.
  - simpl. intros [H | []]. discriminate H.
  - constructor; [ simpl; tauto | constructor ].
Defined.

Lemma independent_objects_are_emitted_in_reverse_witness :
  indentation freshContext = 0 /\
  NoDup (map snd (namedObjects flatGraph)) /\
  (forall entry property,
      In entry (namedObjects flatGraph) ->
      In property (classProperties flatGraph (fst entry)) ->
      propertyNames flatGraph (snd property) = []) /\
  exists tops c1,
    emitTypes noEscape flatGraph freshContext = Ok (tt, c1) /\
    emitted c1
    = emitted freshContext ++ declarationsBlank flatGraph freshContext
        ++ flat_map (fun entry => placeholderLine (snd entry))
             (namedObjects flatGraph)
        ++ flat_map (enumLine flatGraph) (namedEnums flatGraph)
        ++ List.concat
             (rev (map (objectBody noEscape flatGraph) (namedObjects flatGraph)))
        ++ tops.
Proof.
  split; [ reflexivity | ].
  split; [ exact flatGraph_names_differ | ].
  split; [ exact flatGraph_has_no_dependencies | ].
  exact (independent_objects_are_emitted_in_reverse noEscape flatGraph
           freshContext eq_refl flatGraph_names_differ
           flatGraph_has_no_dependencies).
Defined.

(** ** The pass as a whole *)

Lemma appends_bind (m k : Emit unit) (c c1 c2 : EmitContext)
  (t1 t2 : list Sourcelike) :
  appends m c t1 c1 -> appends k c1 t2 c2 ->
  appends (m ;;; k) c (t1 ++ t2) c2.
Proof.
  intros [Hm [He1 Hi1]] [Hk [He2 Hi2]]. repeat split.
  - unfold bind. now rewrite Hm.
  - now rewrite He2, He1, app_assoc.
  - congruence.
Qed.

Lemma appends_emitLine (lineParts : list Sourcelike) (c : EmitContext) :
  exists tokens c', appends (emitLine lineParts) c tokens c'.
Proof.
  destruct lineParts as [ | part rest ]; do 2 eexists; repeat split.
Qed.

Lemma appends_ensureBlankLine (c : EmitContext) :
  exists c', appends ensureBlankLine c [] c'.
Proof.
  destruct (ensureBlankLine_run c) as [c' [Hrun [Hemitted [Hindent _]]]].
  exists c'. repeat split; [ exact Hrun | | exact Hindent ].
  now rewrite app_nil_r.
Qed.

Lemma appends_emitTypes (utf16StringEscape : string -> string) (this : Renderer)
  (c : EmitContext) :
  exists tokens c', appends (emitTypes utf16StringEscape this) c tokens c'.
Proof.
  destruct (emitTypes_run_indented utf16StringEscape this c)
    as [tops [c1 [Hrun [Hemitted Hindent]]]].
  eexists. exists c1. split; [ exact Hrun | ].
  split; [ exact Hemitted | exact Hindent ].
Qed.

Lemma appends_header (this : Renderer) (c : EmitContext) :
  exists tokens c',
    appends (match leadingComments this with
             | Some comments => emitCommentLines comments
             | None => emitUsageComments
             end ;;; emitImports) c tokens c'.
Proof.
  assert (Hcomments : exists t1 c1,
             appends (match leadingComments this with
                      | Some comments => emitCommentLines comments
                      | None => emitUsageComments
                      end) c t1 c1).
  { destruct (leadingComments this) as [comments | ].
    - unfold emitCommentLines. apply forEach_appends.
      intros line c0. apply appends_emitLine.
    - apply appends_emitLine. }
  destruct Hcomments as [t1 [c1 H1]].
  destruct (appends_ensureBlankLine c1) as [c2 H2].
  destruct (appends_emitLine
              [SText (String.append "import PropTypes from "
                        (String.append dquote
                           (String.append "prop-types"
                              (String.append dquote ";"))))] c2)
    as [t3 [c3 H3]].
  exists (t1 ++ [] ++ t3), c3.
  apply (appends_bind _ _ c c1 c3); [ exact H1 | ].
  unfold emitImports. apply (appends_bind _ _ c1 c2 c3); assumption.
Qed.

(** X10.  The pass never fails: from any context, for any graph, comments
    and escaping, [emitSourceStructure] returns; none of the failures the
    code could raise (a type without mapping, an index outside [mapValue], an
    array root without items, a change of indentation before the first line
    of a context) is reachable.  It only appends to what the
    context already holds and leaves the indentation as it found it. *)
Theorem pass_never_fails (utf16StringEscape : string -> string)
  (this : Renderer) (c : EmitContext) :
  (exists tokens c',
      emitSourceStructure utf16StringEscape this c = Ok (tt, c') /\
      emitted c' = emitted c ++ tokens /\
      indentation c' = indentation c) /\
  (exists text, renderPass utf16StringEscape this = Ok text).
Proof.
  assert (Hall : forall c0, exists tokens c',
             appends (emitSourceStructure utf16StringEscape this) c0 tokens c').
  { intros c0.
    destruct (appends_header this c0) as [t1 [c1 H1]].
    destruct (appends_emitTypes utf16StringEscape this c1) as [t2 [c2 H2]].
    exists (t1 ++ t2), c2.
    destruct H1 as [Hrun1 [Hem1 Hind1]]. destruct H2 as [Hrun2 [Hem2 Hind2]].
    repeat split.
    - unfold emitSourceStructure. unfold bind in *.
      destruct (match leadingComments this with
                | Some comments => emitCommentLines comments
                | None => emitUsageComments
                end c0) as [[[] c'] | msg]; [ | discriminate Hrun1 ].
      rewrite Hrun1. exact Hrun2.
    - now rewrite Hem2, Hem1, app_assoc.
    - congruence. }
  split.
  - exact (Hall c).
  - destruct (Hall freshContext) as [tokens [c' [Hrun _]]].
    unfold renderPass. rewrite Hrun. eexists. reflexivity.
Qed.

(** ** Objects and blocks in any context *)

(** X13.  In any context [emitObject] appends, after a blank line if
    something was emitted before: the head [_name = PropTypes.shape({] at the
    current indentation, one line per property in the declared order, one
    level deeper, holding the escaped JSON key in double quotes, the
    validator and a comma, and the closing line at the current indentation
    again.  It leaves the indentation as it found it. *)
Theorem emitObject_in_any_context (utf16StringEscape : string -> string)
  (this : Renderer) (name : Name) (t : Type_) (c : EmitContext) :
  emitObject utf16StringEscape this name t c
  = Ok (tt, {| emitted :=
                 emitted c ++ blankIfStarted c
                   ++ indentText (indentation c) ++ bodyHead name
                   ++ flat_map
                        (fun p => indentText (S (indentation c))
                                    ++ lineTokens
                                         (propertyParts utf16StringEscape this p))
                        (classProperties this t)
                   ++ indentText (indentation c)
                   ++ [SText "});"; SText newlineText];
               blankLineNeeded := false;
               indentation := indentation c |}).
Proof.
  rewrite emitObject_run. reflexivity.
Qed.

(** X14.  [emitBlock] brackets what [emit] produces: it emits the opening
    line [source {], runs [emit] one indentation level deeper, and, when
    [emit] succeeded, appended its tokens and kept that level, emits the
    closing line [} end] back at the outer indentation, which is also the
    indentation it leaves behind. *)
Theorem emitBlock_brackets_its_body (source end_ : Sourcelike)
  (emit : Emit unit) (c c2 : EmitContext) (inner : list Sourcelike) :
  appends emit
    {| emitted := emitted c ++ pendingBlank c ++ indentText (indentation c)
                    ++ lineTokens [source; SText "{"];
       blankLineNeeded := false;
       indentation := S (indentation c) |}
    inner c2 ->
  emitBlock source end_ emit c
  = Ok (tt, {| emitted :=
                 emitted c ++ pendingBlank c ++ indentText (indentation c)
                   ++ lineTokens [source; SText "{"]
                   ++ inner
                   ++ pendingBlank c2 ++ indentText (indentation c)
                   ++ lineTokens [SText "}"; end_];
               blankLineNeeded := false;
               indentation := indentation c |}).
Proof.
  intros [Hrun [Hemitted Hindent]].
  unfold emitBlock. unfold bind at 1.
  rewrite emitLine_run by discriminate.
  unfold bind at 1.
  erewrite indent_run;
    [ | apply isEmpty_after_line
      | exact Hrun
      | apply (isEmpty_app c2 _ inner Hemitted); left;
        cbn [emitted]; intros H;
        apply app_eq_nil in H; destruct H as [_ H];
        apply app_eq_nil in H; destruct H as [_ H];
        apply app_eq_nil in H; destruct H as [_ H];
        now apply (lineTokens_not_nil [source; SText "{"]) ].
  rewrite emitLine_run by discriminate.
  cbn [emitted indentation] in Hemitted, Hindent.
  f_equal. f_equal.
  apply context_eq; cbn [emitted blankLineNeeded indentation];
    [ | reflexivity | now rewrite Hindent ].
  rewrite Hindent. cbn [Nat.pred].
  match goal with
  | |- context [pendingBlank {| emitted := emitted c2; blankLineNeeded := ?b;
                                indentation := ?i |}] =>
      rewrite (pendingBlank_same
                 {| emitted := emitted c2; blankLineNeeded := b;
                    indentation := i |} c2) by reflexivity
  end.
  rewrite Hemitted, <- !app_assoc. reflexivity.
Qed.

Lemma emitBlock_brackets_its_body_witness :
  appends (emitLine [SText "x"])
    {| emitted := emitted freshContext ++ pendingBlank freshContext
                    ++ indentText (indentation freshContext)
                    ++ lineTokens [SText "f() "; SText "{"];
       blankLineNeeded := false;
       indentation := S (indentation freshContext) |}
    [SText "    "; SText "x"; SText newlineText]
    {| emitted := [SArr [SText "f() "; SText "{"]; SText newlineText;
                   SText "    "; SText "x"; SText newlineText];
       blankLineNeeded := false;
       indentation := 1 |} /\
  emitBlock (SText "f() ") (SText ";") (emitLine [SText "x"]) freshContext
  = Ok (tt, {| emitted := [SArr [SText "f() "; SText "{"]; SText newlineText;
                           SText "    "; SText "x"; SText newlineText;
                           SArr [SText "}"; SText ";"]; SText newlineText];
               blankLineNeeded := false;
               indentation := 0 |}).
Proof.
  assert (H : appends (emitLine [SText "x"])
            {| emitted := emitted freshContext ++ pendingBlank freshContext
                            ++ indentText (indentation freshContext)
                            ++ lineTokens [SText "f() "; SText "{"];
               blankLineNeeded := false;
               indentation := S (indentation freshContext) |}
            [SText "    "; SText "x"; SText newlineText]
            {| emitted := [SArr [SText "f() "; SText "{"]; SText newlineText;
                           SText "    "; SText "x"; SText newlineText];
               blankLineNeeded := false;
               indentation := 1 |})
    by (repeat split).
  split; [ exact H | ].
  exact (emitBlock_brackets_its_body (SText "f() ") (SText ";")
           (emitLine [SText "x"]) freshContext _ _ H).
Defined.

(** ** The head of the output *)

(** X15.  When the caller gave no leading comments, the emitted text starts
    with the usage comment, an empty line and the import of the library, in
    this order, whatever the graph holds. *)
Theorem output_starts_with_usage_and_import
  (utf16StringEscape : string -> string) (this : Renderer) :
  leadingComments this = None ->
  exists rest,
    renderPass utf16StringEscape this = Ok (String.append usageHeader rest).
Proof.
  intros Hnone. unfold renderPass, emitSourceStructure. rewrite Hnone.
  unfold bind at 1. unfold emitUsageComments.
  rewrite emitLine_run by discriminate.
  unfold bind at 1. unfold emitImports.
  rewrite after_ensureBlankLine by discriminate.
  match goal with
  | |- context [emitTypes utf16StringEscape this ?c] =>
      destruct (appends_emitTypes utf16StringEscape this c)
        as [tokens [c' [Hrun [Hemitted _]]]]
  end.
  rewrite Hrun, Hemitted. exists (renderTokens tokens).
  rewrite renderTokens_app. reflexivity.
Qed.

Lemma output_starts_with_usage_and_import_witness :
  leadingComments graphABC = None /\
  exists rest,
    renderPass noEscape graphABC = Ok (String.append usageHeader rest).
Proof.
  split; [ reflexivity | ].
  exact (output_starts_with_usage_and_import noEscape graphABC eq_refl).
Defined.
